(** * suchoi: a 32-bit hash for small processors (suchoi.c)

    A shallow embedding of the functions of [suchoi.c] and the properties
    of its specification.

    Conventions of the embedding.
    - A [uint32_t] or [uint8_t] value is a [Z]; the reduction modulo 2^32
      or 2^8 that C performs on conversion is written out ([u32], [u8]).
    - An evaluation that ISO C leaves undefined yields [None]: a shift of a
      32-bit operand by a count outside 0..31, and an array access outside
      the array.  Functions that can reach such an evaluation return an
      [option]; the others are total.
    - The signedness of plain [char] is implementation-defined; it is a
      parameter ([char_signedness]) of the functions that read a [char].
      A right shift of a negative [int] is taken to be arithmetic, as
      every mainstream compiler implements it. *)

From Stdlib Require Import ZArith Lia Bool List.
From Stdlib Require Import Strings.Byte.
From Stdlib Require Import Orders Sorting.Mergesort Sorting.Permutation.
From stdpp Require Import base option list.

Local Open Scope Z_scope.

(** ** Machine integers *)

Module Word.

Definition u32 (z : Z) : Z := z mod 2 ^ 32.
Definition u8 (z : Z) : Z := z mod 2 ^ 8.

Definition is_u32 (w : Z) : Prop := 0 <= w < 2 ^ 32.

(** [x << n] and [x >> n] on a [uint32_t] operand, for a count that is a
    literal of the source in 0..31. *)
Definition lsl32 (x n : Z) : Z := u32 (Z.shiftl x n).
Definition lsr32 (x n : Z) : Z := Z.shiftr x n.

(** The same operators for a count computed at run time: the evaluation is
    undefined unless [0 <= n < 32]. *)
Definition shift_count_ok (n : Z) : bool := (0 <=? n) && (n <? 32).

Definition c_shl (x n : Z) : option Z :=
  if shift_count_ok n then Some (lsl32 x n) else None.

Definition c_shr (x n : Z) : option Z :=
  if shift_count_ok n then Some (lsr32 x n) else None.

End Word.
Import Word.

(** ** Bit primitives *)

(** [uint32_t rotate(uint32_t input, uint8_t count)]:
    [return (input << count) | (input >> (32 - count));] *)
Definition rotate (input count : Z) : option Z :=
  let count := u8 count in
  hi ← c_shl input count;
  lo ← c_shr input (32 - count);
  Some (Z.lor hi lo).

(** [uint8_t bit_diff(uint32_t a, uint32_t b)]: 32 iterations of
    [if ((a & 1) == (b & 1)) diffCtr++;  a >>= 1;  b >>= 1;] *)
Fixpoint bit_diff_loop (n : nat) (a b diffCtr : Z) : Z :=
  match n with
  | O => diffCtr
  | S n' =>
      let diffCtr :=
        if Z.land a 1 =? Z.land b 1 then u8 (diffCtr + 1) else diffCtr in
      bit_diff_loop n' (lsr32 a 1) (lsr32 b 1) diffCtr
  end.

Definition bit_diff (a b : Z) : Z := bit_diff_loop 32 a b 0.

(** ** The permutation function *)

(** One iteration of the loop body of [shapashnik]; the pair holds the
    values of [output] (which is also the next [input]) and [key] at the end
    of the iteration. *)
Definition shapashnik_round (input key : Z) : option (Z * Z) :=
  let upper := lsr32 input 16 in
  let lower := Z.land input 0xFFFF in
  let output := Z.lor (lsl32 lower 16) upper in
  output ← rotate output (Z.land key 0x7);
  key ← rotate key 3;
  Some (output, key).

Fixpoint shapashnik_loop (n : nat) (input key : Z) : option (Z * Z) :=
  match n with
  | O => Some (input, key)
  | S n' =>
      '(output, key) ← shapashnik_round input key;
      shapashnik_loop n' output key
  end.

(** [uint32_t shapashnik(uint32_t input, uint32_t key)]: the loop runs for
    [i = 0 .. 9] and the function returns [output]. *)
Definition shapashnik (input key : Z) : option Z :=
  fst <$> shapashnik_loop 10 input key.

(** ** The digest *)

(** The s-box [c_pi]. *)
Definition c_pi : list Z :=
  [ 0x243F6A88; 0x85A308D3; 0x3198A2E0; 0x3707344A;
    0x40938222; 0x99F31D00; 0x82EFA98E; 0xC4E6C894;
    0x52821E63; 0x8D01377B; 0xE5466CF3; 0x4E90C6CC;
    0x0AC29B7C; 0x97C50DD3; 0xF84D5B5B; 0x54709179 ].

Inductive char_signedness : Set := SignedChar | UnsignedChar.

(** The value of the [char] object that holds the octet [b]. *)
Definition char_value (cs : char_signedness) (b : byte) : Z :=
  let v := Z.of_N (Byte.to_N b) in
  match cs with
  | SignedChar => if 128 <=? v then v - 256 else v
  | UnsignedChar => v
  end.

(** [uint8_t upperNibble = octet >> 4;] and
    [uint8_t lowerNibble = octet & 0xF;], with [octet] promoted to [int]. *)
Definition upperNibble (octet : Z) : Z := u8 (Z.shiftr octet 4).
Definition lowerNibble (octet : Z) : Z := u8 (Z.land octet 0xF).

(** The first part of the loop body of [suchoi] at index [i]: the octet is
    read and its two nibbles are folded into the state. *)
Definition suchoi_fold (cs : char_signedness) (input : list byte)
    (i state : Z) : option Z :=
  b ← input !! Z.to_nat i;
  let octet := char_value cs b in
  x ← c_pi !! Z.to_nat (upperNibble octet);
  let state := Z.lxor state x in
  let state := Z.lor (lsl32 state 31) (lsr32 state 1) in
  y ← c_pi !! Z.to_nat (lowerNibble octet);
  let state := Z.lxor state y in
  let state := Z.lor (lsl32 state 31) (lsr32 state 1) in
  Some state.

(** The whole loop body: the fold, then the permutation of the state after
    every 16th octet. *)
Definition suchoi_body (cs : char_signedness) (input : list byte)
    (i state : Z) : option Z :=
  state ← suchoi_fold cs input i state;
  if Z.land i 0xf =? 0xf then shapashnik state state else Some state.

(** [n] further iterations of the loop, from index [i]. *)
Fixpoint suchoi_loop (cs : char_signedness) (input : list byte)
    (n : nat) (i state : Z) : option Z :=
  match n with
  | O => Some state
  | S n' =>
      state ← suchoi_body cs input i state;
      suchoi_loop cs input n' (i + 1) state
  end.

(** [uint32_t suchoi(const char* input, uint32_t input_size)].  The index
    [i] stays below [input_size], so its increment never wraps. *)
Definition suchoi (cs : char_signedness) (input : list byte)
    (input_size : Z) : option Z :=
  suchoi_loop cs input (Z.to_nat input_size) 0 0.

(** ** Octet / integer codecs *)

(** [output[i] = v] in a caller-provided buffer. *)
Definition store (buf : list Z) (i : Z) (v : Z) : option (list Z) :=
  if (Z.to_nat i <? length buf)%nat then Some (<[Z.to_nat i := v]> buf) else None.

(** [n] further iterations of the loop of [int2octets], from index [i]. *)
Fixpoint int2octets_loop (n : nat) (i input : Z) (output : list Z)
    : option (list Z) :=
  match n with
  | O => Some output
  | S n' =>
      output ← store output i (u8 (Z.land input 0xFF));
      int2octets_loop n' (u8 (i + 1)) (lsr32 input 8) output
  end.

(** [void int2octets(uint32_t input, uint8_t* output)]: the loop runs for
    [i = 0 .. 3]; the result is the buffer after the call. *)
Definition int2octets (input : Z) (output : list Z) : option (list Z) :=
  int2octets_loop 4 0 input output.

(** The loop [for (i = 3; i > 0; i--)] of [octets2int], entered with index
    [i]: it is left when [i] reaches 0. *)
Fixpoint octets2int_loop (i : nat) (input : list Z) (output : Z) : option Z :=
  match i with
  | O => Some output
  | S i' =>
      v ← input !! i;
      let output := Z.lor output v in
      let output := lsl32 output 8 in
      octets2int_loop i' input output
  end.

(** [uint32_t octets2int(uint8_t* input)]: after the loop, [i] is 0 and the
    last statement is [output |= input[i]]. *)
Definition octets2int (input : list Z) : option Z :=
  output ← octets2int_loop 3 input 0;
  v ← input !! 0%nat;
  Some (Z.lor output v).

(** ** Reference definitions, after the words of the specification *)

Module Spec.

(** Circular left rotation of a 32-bit word by [c] bits, [0 <= c < 32]: the
    bits shifted out at the top re-enter at the bottom. *)
Definition rotl32 (w c : Z) : Z :=
  (w * 2 ^ c) mod 2 ^ 32 + (w * 2 ^ c) / 2 ^ 32.

(** Upper and lower 16 bits recombined with the lower half first. *)
Definition swap_halves (w : Z) : Z := (w mod 2 ^ 16) * 2 ^ 16 + w / 2 ^ 16.

(** One round of the permutation on (working value, key). *)
Definition permute_round (s : Z * Z) : Z * Z :=
  (rotl32 (swap_halves s.1) (Z.land s.2 0x7), rotl32 s.2 3).

(** Exactly 10 rounds; the final key is discarded. *)
Definition permute (x k : Z) : Z := (Nat.iter 10 permute_round (x, k)).1.

(** The rotation counts [key & 0x7] of the first [n] rounds, and the test
    that none of them is 0. *)
Fixpoint round_counts (n : nat) (k : Z) : list Z :=
  match n with
  | O => []
  | S n' => Z.land k 0x7 :: round_counts n' (rotl32 k 3)
  end.

Definition nonzero_counts (l : list Z) : bool :=
  forallb (fun c => negb (c =? 0)) l.

(** The 16 constants of the diffusion table, indexed by a nibble. *)
Definition sbox_table : list Z :=
  [ 0x243F6A88; 0x85A308D3; 0x3198A2E0; 0x3707344A; 0x40938222; 0x99F31D00;
    0x82EFA98E; 0xC4E6C894; 0x52821E63; 0x8D01377B; 0xE5466CF3; 0x4E90C6CC;
    0x0AC29B7C; 0x97C50DD3; 0xF84D5B5B; 0x54709179 ].

Definition sbox (n : Z) : Z := nth (Z.to_nat n) sbox_table 0.

Definition octet (b : byte) : Z := Z.of_N (Byte.to_N b).

(** Bits 4-7 and bits 0-3 of an octet. *)
Definition upper_nibble (b : byte) : Z := octet b / 16.
Definition lower_nibble (b : byte) : Z := octet b mod 16.

(** The two s-box steps of an octet: XOR with the entry of the upper
    nibble, rotate left by 31, XOR with the entry of the lower nibble,
    rotate left by 31. *)
Definition fold_octet (state : Z) (b : byte) : Z :=
  let state := rotl32 (Z.lxor state (sbox (upper_nibble b))) 31 in
  rotl32 (Z.lxor state (sbox (lower_nibble b))) 31.

(** The per-byte step at 0-based index [i]. *)
Definition digest_step (i state : Z) (b : byte) : Z :=
  let state := fold_octet state b in
  if Z.land i 0xF =? 0xF then permute state state else state.

(** The octets are consumed in order; the accumulator pairs the index of
    the next octet with the state. *)
Definition digest_from (i state : Z) (input : list byte) : Z :=
  (fold_left (fun acc b => (acc.1 + 1, digest_step acc.1 acc.2 b))
             input (i, state)).2.

Definition digest (input : list byte) : Z := digest_from 0 0 input.

(** The number of positions [i], [from <= i < from + n], at which [p] holds. *)
Fixpoint count_positions (p : Z -> bool) (from : Z) (n : nat) : Z :=
  match n with
  | O => 0
  | S n' => (if p from then 1 else 0) + count_positions p (from + 1) n'
  end.

Definition same_bit (a b : Z) (i : Z) : bool :=
  Bool.eqb (Z.testbit a i) (Z.testbit b i).

(** Of the 32 bit positions, those at which [a] and [b] carry the same
    bit, and those at which they differ (the Hamming distance). *)
Definition equal_bits (a b : Z) : Z := count_positions (same_bit a b) 0 32.

Definition hamming_distance (a b : Z) : Z :=
  count_positions (fun i => xorb (Z.testbit a i) (Z.testbit b i)) 0 32.

End Spec.

(** ** Auxiliary definitions *)

(** Two inputs of 16 printable octets with the same digest. *)
Definition remix_input_a : list byte :=
  [x40; x26; x70; x52; x4f; x76; x28; x24; x3f; x7e; x54; x63; x2e; x2e; x4b; x44].

Definition remix_input_b : list byte :=
  [x64; x7b; x6a; x7e; x31; x55; x6d; x72; x29; x43; x7b; x6d; x57; x48; x48; x33].

(** The value of a rotation whose count is in 1..31. *)
Definition rotate_value (w k : Z) : Z :=
  Z.lor (lsl32 w k) (lsr32 w (32 - k)).

(** The octets whose [char] value is the octet itself: all of them where
    [char] is unsigned, those below 0x80 where it is signed. *)
Definition char_in_range (cs : char_signedness) (b : byte) : bool :=
  match cs with
  | UnsignedChar => true
  | SignedChar => Spec.octet b <? 128
  end.

(** ** Further functions of [suchoi.c] *)

(** [1 << pos] for a [uint8_t] position: the operand [1] is an [int], so
    the evaluation is undefined unless the count is in 0..31 and the
    result, [2^pos], is representable in the 32-bit [int], that is
    [pos <= 30]. *)
Definition int_shl_one (pos : Z) : option Z :=
  if (0 <=? pos) && (pos <? 31) then Some (Z.shiftl 1 pos) else None.

(** [uint32_t swapBits(uint32_t input, uint8_t pos1, uint8_t pos2)]. *)
Definition swapBits (input pos1 pos2 : Z) : option Z :=
  s1 ← int_shl_one (u8 pos1);
  s2 ← int_shl_one (u8 pos2);
  let stencil1 := u32 s1 in
  let stencil2 := u32 s2 in
  let v1 := Z.land input stencil1 in
  let v2 := Z.land input stencil2 in
  let output := input in
  let output := Z.land output (u32 (Z.lnot stencil1)) in
  let output := Z.land output (u32 (Z.lnot stencil2)) in
  let output := if negb (v2 =? 0) then Z.lor output stencil1 else output in
  let output := if negb (v1 =? 0) then Z.lor output stencil2 else output in
  Some output.

(** [n] further iterations of the loop of [shapashnik_lp], from index [i];
    the result of [swapBits] is discarded, the call is still evaluated.
    The loop yields the final [key]. *)
Fixpoint shapashnik_lp_loop (n : nat) (i input key : Z) : option Z :=
  match n with
  | O => Some key
  | S n' =>
      let index := u8 (Z.land key 0x1F) in
      key ← rotate key 5;
      _ ← swapBits input i index;
      shapashnik_lp_loop n' (u8 (i + 1)) input key
  end.

(** [uint32_t shapashnik_lp(uint32_t input, uint32_t key)]: the loop runs
    for [i = 0 .. 31] and the function returns [output], which is 0. *)
Definition shapashnik_lp (input key : Z) : option Z :=
  let output := 0 in
  _ ← shapashnik_lp_loop 32 0 input key;
  Some output.

(** [const int MOD_ADLER = 65521;] *)
Definition MOD_ADLER : Z := 65521.

(** The body of the loop of [adler32] at [index], on the pair [(a, b)];
    [data[index]] is a [char], converted to [uint32_t] for the addition. *)
Definition adler32_body (cs : char_signedness) (data : list byte)
    (index : Z) (ab : Z * Z) : option (Z * Z) :=
  c ← data !! Z.to_nat index;
  let a := u32 (ab.1 + char_value cs c) mod MOD_ADLER in
  let b := u32 (ab.2 + a) mod MOD_ADLER in
  Some (a, b).

Fixpoint adler32_loop (cs : char_signedness) (data : list byte)
    (n : nat) (index : Z) (ab : Z * Z) : option (Z * Z) :=
  match n with
  | O => Some ab
  | S n' =>
      ab ← adler32_body cs data index ab;
      adler32_loop cs data n' (index + 1) ab
  end.

(** [uint32_t adler32(const char *data, uint32_t len)]:
    [a = 1, b = 0], the loop over [index < len], then [(b << 16) | a]. *)
Definition adler32 (cs : char_signedness) (data : list byte) (len : Z)
    : option Z :=
  ab ← adler32_loop cs data (Z.to_nat len) 0 (1, 0);
  Some (Z.lor (lsl32 ab.2 16) ab.1).

(** ** Auxiliary definitions for the further properties *)

(** The sum of the ten rotation counts of a key, modulo 32. *)
Definition shapashnik_rotation (k : Z) : Z :=
  fold_right Z.add 0 (Spec.round_counts 10 k) mod 32.

(** The ten 3-bit groups of a key, in the order in which the rounds of
    [shapashnik] use them: the bits 0-2, then 29-31, 26-28, ..., 5-7. *)
Definition key_groups (k : Z) : list Z :=
  k mod 8 :: map (fun s => (k / 2 ^ s) mod 8) [29; 26; 23; 20; 17; 14; 11; 8; 5].

(** The sum of the octets of an input, and the sum weighted by the number
    of octets from each position to the end. *)
Fixpoint octet_sum (l : list byte) : Z :=
  match l with
  | [] => 0
  | b :: rest => Spec.octet b + octet_sum rest
  end.

Fixpoint weighted_octet_sum (l : list byte) : Z :=
  match l with
  | [] => 0
  | b :: rest => Z.of_nat (length l) * Spec.octet b + weighted_octet_sum rest
  end.

(** All 256 octets, and all inputs of at most two octets. *)
Definition all_octets : list byte :=
  omap (fun n => Byte.of_N (N.of_nat n)) (seq 0 256).

Definition short_inputs : list (list byte) :=
  [] :: map (fun b => [b]) all_octets
     ++ flat_map (fun b1 => map (fun b2 => [b1; b2]) all_octets) all_octets.

(** The digests of all inputs of at most two octets, computed from the 256
    one-octet contributions. *)
Definition two_octet_digests : list Z :=
  let F := map (Spec.fold_octet 0) all_octets in
  let G := map (fun s => Spec.rotl32 s 30) F in
  0 :: F ++ flat_map (fun g => map (Z.lxor g) F) G.

(** A test for duplicates in a list of digests: after a merge sort, a
    list without duplicates is strictly increasing. *)
Fixpoint strictly_increasing (l : list Z) : bool :=
  match l with
  | x :: ((y :: _) as rest) => (x <? y) && strictly_increasing rest
  | _ => true
  end.

Module ZLeb <: Orders.TotalLeBool.
Definition t := Z.
Definition leb := Z.leb.
Lemma leb_total (x y : t) : leb x y = true \/ leb y x = true.
Proof. unfold leb. destruct (Z.leb_spec x y); [by left | right]. apply Z.leb_le. lia. Qed.
End ZLeb.

Module ZSort := Mergesort.Sort ZLeb.

(** ** Properties of the machine integers *)

Lemma u32_range z : is_u32 (u32 z).
Proof. unfold is_u32, u32. apply Z.mod_pos_bound. lia. Qed.

Lemma u8_small z : 0 <= z < 256 -> u8 z = z.
Proof. intros H. unfold u8. apply Z.mod_small. lia. Qed.

Lemma is_u32_high_bits w i : is_u32 w -> 32 <= i -> Z.testbit w i = false.
Proof.
  intros Hw Hi. unfold is_u32 in Hw.
  rewrite <- (Z.mod_small w (2 ^ 32)) by lia.
  apply Z.mod_pow2_bits_high. lia.
Qed.

Lemma is_u32_of_bits w :
  0 <= w -> (forall i, 32 <= i -> Z.testbit w i = false) -> is_u32 w.
Proof.
  intros Hw Hbits. assert (w = w mod 2 ^ 32) as ->.
  { apply Z.bits_inj'. intros i Hi. destruct (Z.lt_ge_cases i 32).
    - by rewrite Z.mod_pow2_bits_low by lia.
    - rewrite Z.mod_pow2_bits_high by lia. by apply Hbits. }
  apply Z.mod_pos_bound. lia.
Qed.

Lemma is_u32_lor a b : is_u32 a -> is_u32 b -> is_u32 (Z.lor a b).
Proof.
  intros Ha Hb. apply is_u32_of_bits.
  - apply Z.lor_nonneg. unfold is_u32 in *. lia.
  - intros i Hi. by rewrite Z.lor_spec, !is_u32_high_bits by done.
Qed.

Lemma is_u32_lxor a b : is_u32 a -> is_u32 b -> is_u32 (Z.lxor a b).
Proof.
  intros Ha Hb. apply is_u32_of_bits.
  - apply Z.lxor_nonneg. unfold is_u32 in *. lia.
  - intros i Hi. by rewrite Z.lxor_spec, !is_u32_high_bits by done.
Qed.

Lemma lsr32_range w n : is_u32 w -> 0 <= n -> is_u32 (lsr32 w n).
Proof.
  unfold is_u32, lsr32. intros Hw Hn. rewrite Z.shiftr_div_pow2 by lia.
  assert (0 < 2 ^ n) by (apply Z.pow_pos_nonneg; lia).
  split.
  - apply Z.div_pos; lia.
  - apply Z.le_lt_trans with w; [|lia]. apply Z.div_le_upper_bound; nia.
Qed.

Lemma rotate_in_range w k :
  0 < k < 32 -> rotate w k = Some (rotate_value w k).
Proof.
  intros Hk. unfold rotate, c_shl, c_shr, shift_count_ok.
  rewrite u8_small by lia.
  replace (0 <=? k) with true by (symmetry; apply Z.leb_le; lia).
  replace (k <? 32) with true by (symmetry; apply Z.ltb_lt; lia).
  replace (0 <=? 32 - k) with true by (symmetry; apply Z.leb_le; lia).
  replace (32 - k <? 32) with true by (symmetry; apply Z.ltb_lt; lia).
  reflexivity.
Qed.

Lemma rotate_value_range w k : is_u32 w -> 0 < k < 32 -> is_u32 (rotate_value w k).
Proof.
  intros Hw Hk. apply is_u32_lor; [apply u32_range | apply lsr32_range; [done | lia]].
Qed.

Lemma rotate_value_testbit w k i :
  is_u32 w -> 0 < k < 32 -> 0 <= i ->
  Z.testbit (rotate_value w k) i =
  if i <? k then Z.testbit w (i + 32 - k)
  else if i <? 32 then Z.testbit w (i - k) else false.
Proof.
  intros Hw Hk Hi. unfold rotate_value, lsl32, lsr32, u32.
  rewrite Z.lor_spec, Z.shiftr_spec by lia.
  replace (i + (32 - k)) with (i + 32 - k) by lia.
  destruct (Z.ltb_spec i k) as [Hik|Hik].
  - rewrite Z.mod_pow2_bits_low, Z.shiftl_spec_low by lia. reflexivity.
  - rewrite (is_u32_high_bits w (i + 32 - k)) by (done || lia).
    rewrite orb_false_r.
    destruct (Z.ltb_spec i 32) as [Hi32|Hi32].
    + rewrite Z.mod_pow2_bits_low, Z.shiftl_spec by lia. reflexivity.
    + apply Z.mod_pow2_bits_high. lia.
Qed.

Lemma rotate_value_inverse w k :
  is_u32 w -> 0 < k < 32 -> rotate_value (rotate_value w k) (32 - k) = w.
Proof.
  intros Hw Hk.
  apply Z.bits_inj'. intros i Hi.
  rewrite rotate_value_testbit by (lia || by apply rotate_value_range).
  destruct (Z.ltb_spec i (32 - k)) as [H1|H1].
  - rewrite rotate_value_testbit by (done || lia).
    destruct (Z.ltb_spec (i + 32 - (32 - k)) k); [lia|].
    destruct (Z.ltb_spec (i + 32 - (32 - k)) 32); [|lia].
    f_equal. lia.
  - destruct (Z.ltb_spec i 32) as [H2|H2].
    + rewrite rotate_value_testbit by (done || lia).
      destruct (Z.ltb_spec (i - (32 - k)) k); [|lia].
      f_equal. lia.
    + symmetry. by apply is_u32_high_bits.
Qed.

(** C7.  For every 32-bit word [w] and every count [k] with [0 < k < 32],
    both rotations are defined and [rotate(rotate(w, k), 32 - k) == w]: a
    left rotation by [k] is undone by a further left rotation by [32 - k]. *)
Theorem rotate_roundtrip (w k : Z) :
  is_u32 w -> 0 < k < 32 ->
  (r ← rotate w k; rotate r (32 - k)) = Some w.
Proof.
  intros Hw Hk.
  rewrite rotate_in_range by lia. simpl.
  rewrite rotate_in_range by lia.
  f_equal. by apply rotate_value_inverse.
Qed.

Lemma rotate_roundtrip_witness :
  (r ← rotate 0xABCD0123 5; rotate r (32 - 5)) = Some 0xABCD0123.
Proof.
  apply (rotate_roundtrip 0xABCD0123 5); unfold is_u32; lia.
Defined.

(** [rotate] is defined exactly for the counts 1..31. *)
Lemma rotate_defined w c :
  rotate w c =
  if (0 <? u8 c) && (u8 c <? 32) then Some (rotate_value w (u8 c)) else None.
Proof.
  destruct (Z.ltb_spec 0 (u8 c)) as [H0|H0];
    destruct (Z.ltb_spec (u8 c) 32) as [H32|H32]; cbn [andb].
  - rewrite <- (rotate_in_range w (u8 c)) by lia.
    unfold rotate. cbv zeta.
    replace (u8 (u8 c)) with (u8 c) by (symmetry; apply Z.mod_mod; lia).
    reflexivity.
  - unfold rotate, c_shl, shift_count_ok.
    replace (u8 c <? 32) with false by (symmetry; apply Z.ltb_ge; lia).
    by rewrite andb_false_r.
  - assert (u8 c = 0) as Hc
      by (pose proof (Z.mod_pos_bound c (2 ^ 8) ltac:(lia)); unfold u8 in *; lia).
    unfold rotate. rewrite Hc. reflexivity.
  - lia.
Qed.

(** C8.  [rotate] has no special case for a zero count and does not mask
    its shift counts: for every word, [rotate(w, 0)] evaluates
    [input >> (32 - 0)], a shift of a 32-bit operand by 32 bits, so the call
    has no defined result. *)
Theorem rotate_zero_count_undefined (w : Z) :
  32 - u8 0 = 32 /\ c_shr w 32 = None /\ rotate w 0 = None.
Proof. repeat split. Qed.

(** ** The codecs *)

Lemma int2octets_buffer w b0 b1 b2 b3 rest :
  int2octets w (b0 :: b1 :: b2 :: b3 :: rest) =
  Some (u8 (Z.land w 0xFF) :: u8 (Z.land (lsr32 w 8) 0xFF)
        :: u8 (Z.land (lsr32 (lsr32 w 8) 8) 0xFF)
        :: u8 (Z.land (lsr32 (lsr32 (lsr32 w 8) 8) 8) 0xFF) :: rest).
Proof. reflexivity. Qed.

Lemma octets2int_buffer b0 b1 b2 b3 rest :
  octets2int (b0 :: b1 :: b2 :: b3 :: rest) =
  Some (Z.lor (lsl32 (Z.lor (lsl32 (Z.lor (lsl32 (Z.lor 0 b3) 8) b2) 8) b1) 8) b0).
Proof. reflexivity. Qed.

Lemma low_byte x : 0 <= x -> u8 (Z.land x 0xFF) = x mod 256.
Proof.
  intros Hx. unfold u8. change 255 with (Z.ones 8).
  rewrite Z.land_ones by lia. rewrite Z.mod_mod by lia. reflexivity.
Qed.

Lemma lsr32_8 x : lsr32 x 8 = x / 256.
Proof. unfold lsr32. rewrite Z.shiftr_div_pow2 by lia. reflexivity. Qed.

Lemma small_high_bits b n i : 0 <= b < 2 ^ n -> 0 <= n <= i -> Z.testbit b i = false.
Proof.
  intros Hb Hi. rewrite <- (Z.mod_small b (2 ^ n)) by lia.
  apply Z.mod_pow2_bits_high. lia.
Qed.

Lemma land_shiftl_low hi b n :
  0 <= n -> 0 <= b < 2 ^ n -> Z.land (Z.shiftl hi n) b = 0.
Proof.
  intros Hn Hb. apply Z.bits_inj'. intros i Hi.
  rewrite Z.land_spec, Z.bits_0.
  destruct (Z.lt_ge_cases i n).
  - rewrite Z.shiftl_spec_low by lia. reflexivity.
  - rewrite (small_high_bits b n i) by lia. apply andb_false_r.
Qed.

(** An OR of disjoint bit fields is their sum. *)
Lemma lor_shiftl_low hi b n :
  0 <= n -> 0 <= b < 2 ^ n -> Z.lor (Z.shiftl hi n) b = hi * 2 ^ n + b.
Proof.
  intros Hn Hb. pose proof (land_shiftl_low hi b n Hn Hb) as Hdisjoint.
  rewrite <- Z.lxor_lor by exact Hdisjoint.
  rewrite <- Z.add_nocarry_lxor by exact Hdisjoint.
  by rewrite Z.shiftl_mul_pow2 by lia.
Qed.

Lemma lsl32_lor_byte hi b :
  0 <= hi < 2 ^ 24 -> 0 <= b < 256 -> Z.lor (lsl32 hi 8) b = hi * 256 + b.
Proof.
  intros Hhi Hb. unfold lsl32, u32.
  rewrite Z.shiftl_mul_pow2 by lia. rewrite Z.mod_small by lia.
  rewrite <- Z.shiftl_mul_pow2 by lia. by apply lor_shiftl_low.
Qed.

Lemma codec_value w :
  is_u32 w ->
  let b0 := u8 (Z.land w 0xFF) in
  let b1 := u8 (Z.land (lsr32 w 8) 0xFF) in
  let b2 := u8 (Z.land (lsr32 (lsr32 w 8) 8) 0xFF) in
  let b3 := u8 (Z.land (lsr32 (lsr32 (lsr32 w 8) 8) 8) 0xFF) in
  Z.lor (lsl32 (Z.lor (lsl32 (Z.lor (lsl32 (Z.lor 0 b3) 8) b2) 8) b1) 8) b0
  = w.
Proof.
  unfold is_u32. intros Hw. cbv zeta. rewrite !lsr32_8, Z.lor_0_l.
  assert (0 <= w / 256) by (apply Z.div_pos; lia).
  assert (0 <= w / 256 / 256) by (apply Z.div_pos; lia).
  assert (0 <= w / 256 / 256 / 256) by (apply Z.div_pos; lia).
  rewrite !low_byte by lia.
  pose proof (Z.mod_pos_bound w 256 ltac:(lia)).
  pose proof (Z.mod_pos_bound (w / 256) 256 ltac:(lia)).
  pose proof (Z.mod_pos_bound (w / 256 / 256) 256 ltac:(lia)).
  pose proof (Z.mod_pos_bound (w / 256 / 256 / 256) 256 ltac:(lia)).
  set (b3 := w / 256 / 256 / 256 mod 256) in *.
  set (b2 := w / 256 / 256 mod 256) in *.
  set (b1 := w / 256 mod 256) in *.
  set (b0 := w mod 256) in *.
  rewrite (lsl32_lor_byte b3 b2) by lia.
  rewrite (lsl32_lor_byte (b3 * 256 + b2) b1) by lia.
  rewrite (lsl32_lor_byte ((b3 * 256 + b2) * 256 + b1) b0) by lia.
  subst b0 b1 b2 b3. clear -Hw.
  Z.div_mod_to_equations. lia.
Qed.

(** C5.  For every 32-bit word [w] and every buffer of at least 4 octets,
    [int2octets] fills the buffer and [octets2int] of the filled buffer is
    [w]: packing then unpacking recovers the word. *)
Theorem octets2int_int2octets (w : Z) (buffer : list Z) :
  is_u32 w -> (4 <= length buffer)%nat ->
  (octets ← int2octets w buffer; octets2int octets) = Some w.
Proof.
  intros Hw Hlen.
  destruct buffer as [|b0 [|b1 [|b2 [|b3 rest]]]]; simpl in Hlen; try lia.
  rewrite int2octets_buffer. simpl mbind.
  rewrite octets2int_buffer. f_equal. by apply (codec_value w).
Qed.

Lemma octets2int_int2octets_witness :
  (octets ← int2octets 0xDEADBEEF [0; 0; 0; 0]; octets2int octets)
  = Some 0xDEADBEEF.
Proof.
  apply (octets2int_int2octets 0xDEADBEEF [0; 0; 0; 0]).
  - unfold is_u32. lia.
  - simpl. lia.
Defined.

(** C6.  [int2octets(0xABCD0123)] leaves exactly [0x23, 0x01, 0xCD, 0xAB] in
    a 4-octet buffer, whatever it held before (octet 0 is the least
    significant), and [octets2int] of these octets is [0xABCD0123]. *)
Theorem int2octets_known_constant (b0 b1 b2 b3 : Z) :
  int2octets 0xABCD0123 [b0; b1; b2; b3] = Some [0x23; 0x01; 0xCD; 0xAB]
  /\ octets2int [0x23; 0x01; 0xCD; 0xAB] = Some 0xABCD0123.
Proof. split; reflexivity. Qed.

(** ** The bit-difference counter *)

Section BitDiff.

Import Spec.

Lemma low_bit_test a b :
  (Z.land a 1 =? Z.land b 1) = same_bit a b 0.
Proof.
  unfold same_bit. change 1 with (Z.ones 1).
  rewrite !Z.land_ones by lia. change (2 ^ 1) with 2.
  rewrite <- !Z.bit0_mod.
  destruct (Z.testbit a 0), (Z.testbit b 0); reflexivity.
Qed.

Lemma count_positions_ext p q from n :
  (forall i, from <= i -> p i = q i) ->
  count_positions p from n = count_positions q from n.
Proof.
  revert from. induction n as [|n IH]; intros from Hpq; simpl; [done|].
  rewrite Hpq by lia. rewrite (IH (from + 1)); [done|].
  intros i Hi. apply Hpq. lia.
Qed.

Lemma count_positions_shift p from n :
  count_positions (fun i => p (i + 1)) from n = count_positions p (from + 1) n.
Proof.
  revert from. induction n as [|n IH]; intros from; simpl; [done|].
  by rewrite IH.
Qed.

Lemma count_positions_bounds p from n :
  0 <= count_positions p from n <= Z.of_nat n.
Proof.
  revert from. induction n as [|n IH]; intros from; simpl count_positions; [lia|].
  specialize (IH (from + 1)). destruct (p from); lia.
Qed.

Lemma same_bit_lsr a b i :
  0 <= i -> same_bit (lsr32 a 1) (lsr32 b 1) i = same_bit a b (i + 1).
Proof.
  intros Hi. unfold same_bit, lsr32. by rewrite !Z.shiftr_spec by lia.
Qed.

(** The loop invariant: the counter grows by the number of agreeing
    positions among the [n] lowest, as long as it fits in a [uint8_t]. *)
Lemma bit_diff_loop_counts n a b c :
  0 <= c -> c + Z.of_nat n < 256 ->
  bit_diff_loop n a b c = c + count_positions (same_bit a b) 0 n.
Proof.
  revert a b c. induction n as [|n IH]; intros a b c Hc Hn.
  - simpl. lia.
  - cbn [bit_diff_loop count_positions].
    rewrite low_bit_test.
    rewrite <- count_positions_shift.
    rewrite <- (count_positions_ext (same_bit (lsr32 a 1) (lsr32 b 1)))
      by (intros i Hi; by apply same_bit_lsr).
    destruct (same_bit a b 0).
    + rewrite u8_small by lia. rewrite IH by lia. lia.
    + rewrite IH by lia. lia.
Qed.

Lemma equal_plus_differing a b n from :
  count_positions (same_bit a b) from n
  + count_positions (fun i => xorb (Z.testbit a i) (Z.testbit b i)) from n
  = Z.of_nat n.
Proof.
  revert from. induction n as [|n IH]; intros from; [done|].
  cbn [count_positions]. specialize (IH (from + 1)).
  unfold same_bit at 1.
  destruct (Z.testbit a from), (Z.testbit b from); simpl; lia.
Qed.

Lemma count_positions_all p from n :
  (forall i, p i = true) -> count_positions p from n = Z.of_nat n.
Proof.
  intros Hp. revert from. induction n as [|n IH]; intros from; [done|].
  cbn [count_positions]. rewrite Hp, IH. lia.
Qed.

Lemma bit_diff_equal_bits a b : bit_diff a b = equal_bits a b.
Proof.
  unfold bit_diff. rewrite bit_diff_loop_counts by lia. reflexivity.
Qed.

End BitDiff.

(** C9.  [bit_diff(a, b)] is the number of the 32 bit positions at which
    [a] and [b] carry the same bit: a similarity count between 0 and 32, not
    a Hamming distance.  [bit_diff(a, a)] is 32, and [bit_diff(a, b)] plus
    the Hamming distance of [a] and [b] is 32. *)
Theorem bit_diff_counts_equal_bits (a b : Z) :
  bit_diff a b = Spec.equal_bits a b
  /\ 0 <= bit_diff a b <= 32
  /\ bit_diff a a = 32
  /\ bit_diff a b + Spec.hamming_distance a b = 32.
Proof.
  rewrite !bit_diff_equal_bits. unfold Spec.equal_bits, Spec.hamming_distance.
  repeat split.
  - apply (count_positions_bounds _ 0 32).
  - apply (count_positions_bounds _ 0 32).
  - apply (count_positions_all _ 0 32). intros i. apply Bool.eqb_reflx.
  - apply (equal_plus_differing a b 32 0).
Qed.

(** ** The permutation function *)

Section Shapashnik.

Import Spec.

Lemma rotate_small_count w c :
  0 <= c < 32 ->
  rotate w c = if c =? 0 then None else Some (rotate_value w c).
Proof.
  intros Hc. destruct (Z.eqb_spec c 0) as [->|Hne]; [done|].
  apply rotate_in_range. lia.
Qed.

Lemma key_count_range k : 0 <= Z.land k 0x7 < 8.
Proof.
  change 7 with (Z.ones 3). rewrite Z.land_ones by lia.
  apply Z.mod_pos_bound. lia.
Qed.

Lemma lsl32_mod w c :
  0 <= c <= 32 -> lsl32 w c = (w mod 2 ^ (32 - c)) * 2 ^ c.
Proof.
  intros Hc. unfold lsl32, u32. rewrite Z.shiftl_mul_pow2 by lia.
  replace (2 ^ 32) with (2 ^ (32 - c) * 2 ^ c)
    by (rewrite <- Z.pow_add_r by lia; f_equal; lia).
  apply Z.mul_mod_distr_r.
  - apply Z.pow_nonzero; lia.
  - apply Z.pow_nonzero; lia.
Qed.

Lemma rotate_value_rotl32 w c :
  is_u32 w -> 0 < c < 32 -> rotate_value w c = rotl32 w c.
Proof.
  unfold is_u32. intros Hw Hc. unfold rotate_value, rotl32.
  assert (H32 : 2 ^ 32 = 2 ^ (32 - c) * 2 ^ c)
    by (rewrite <- Z.pow_add_r by lia; f_equal; lia).
  assert (0 < 2 ^ c) by (apply Z.pow_pos_nonneg; lia).
  assert (0 < 2 ^ (32 - c)) by (apply Z.pow_pos_nonneg; lia).
  rewrite lsl32_mod by lia. unfold lsr32.
  rewrite Z.shiftr_div_pow2 by lia.
  rewrite <- Z.shiftl_mul_pow2 by lia.
  rewrite lor_shiftl_low.
  - rewrite H32. rewrite Z.mul_mod_distr_r by lia.
    rewrite Z.div_mul_cancel_r by lia. reflexivity.
  - lia.
  - split; [apply Z.div_pos; lia|].
    apply Z.div_lt_upper_bound; lia.
Qed.

(** The reference rotation, bit by bit: bit [i] of the result is bit
    [i - c] of the word, taken modulo 32. *)
Lemma rotl32_testbit w c i :
  is_u32 w -> 0 < c < 32 -> 0 <= i ->
  Z.testbit (rotl32 w c) i =
  if i <? c then Z.testbit w (i + 32 - c)
  else if i <? 32 then Z.testbit w (i - c) else false.
Proof.
  intros Hw Hc Hi. rewrite <- rotate_value_rotl32 by assumption.
  by apply rotate_value_testbit.
Qed.

Lemma rotl32_zero w : is_u32 w -> rotl32 w 0 = w.
Proof.
  unfold is_u32, rotl32. intros Hw. rewrite Z.mul_1_r.
  rewrite Z.mod_small, Z.div_small by lia. lia.
Qed.

Lemma rotl32_range w c : is_u32 w -> 0 <= c < 32 -> is_u32 (rotl32 w c).
Proof.
  intros Hw Hc. destruct (Z.eq_dec c 0) as [->|Hne].
  - by rewrite rotl32_zero.
  - rewrite <- rotate_value_rotl32 by (done || lia).
    apply rotate_value_range; [done | lia].
Qed.

(** The half-word swap of the loop body. *)
Lemma swap_halves_code x :
  is_u32 x ->
  Z.lor (lsl32 (Z.land x 0xFFFF) 16) (lsr32 x 16) = swap_halves x.
Proof.
  unfold is_u32. intros Hx. unfold swap_halves, lsl32, lsr32, u32.
  change 65535 with (Z.ones 16). rewrite Z.land_ones by lia.
  pose proof (Z.mod_pos_bound x (2 ^ 16) ltac:(lia)).
  rewrite Z.shiftr_div_pow2 by lia.
  rewrite (Z.mod_small (Z.shiftl _ 16))
    by (rewrite Z.shiftl_mul_pow2 by lia; lia).
  apply lor_shiftl_low; [lia|].
  split; [apply Z.div_pos; lia | apply Z.div_lt_upper_bound; lia].
Qed.

Lemma swap_halves_rotate x : is_u32 x -> swap_halves x = rotate_value x 16.
Proof.
  intros Hx. rewrite <- swap_halves_code by done.
  unfold rotate_value. f_equal.
  rewrite !lsl32_mod by lia. f_equal.
  change 65535 with (Z.ones 16). rewrite Z.land_ones by lia.
  change (32 - 16) with 16. apply Z.mod_mod. lia.
Qed.

Lemma swap_halves_range x : is_u32 x -> is_u32 (swap_halves x).
Proof.
  intros Hx. rewrite swap_halves_rotate by done.
  apply rotate_value_range; [done | lia].
Qed.

(** A round of the code against a round of the reference. *)
Lemma shapashnik_round_spec x k :
  is_u32 x -> is_u32 k ->
  shapashnik_round x k =
  if Z.land k 0x7 =? 0 then None else Some (permute_round (x, k)).
Proof.
  intros Hx Hk. unfold shapashnik_round, permute_round.
  rewrite swap_halves_code by done.
  pose proof (key_count_range k) as Hc.
  rewrite (rotate_small_count _ (Z.land k 7)) by lia.
  rewrite (rotate_in_range k 3) by lia.
  destruct (Z.eqb_spec (Z.land k 7) 0) as [H0|H0]; [done|].
  cbn [mbind option_bind fst snd].
  rewrite !rotate_value_rotl32 by (done || lia || by apply swap_halves_range).
  reflexivity.
Qed.

Lemma permute_round_range s :
  is_u32 s.1 -> is_u32 s.2 ->
  is_u32 (permute_round s).1 /\ is_u32 (permute_round s).2.
Proof.
  intros H1 H2. unfold permute_round. cbn [fst snd].
  pose proof (key_count_range s.2).
  split; apply rotl32_range; try lia; try done.
  by apply swap_halves_range.
Qed.

(** [n] iterations of the loop: defined exactly when no round rotates by
    0 bits, and then equal to [n] rounds of the reference. *)
Lemma shapashnik_loop_spec n x k :
  is_u32 x -> is_u32 k ->
  shapashnik_loop n x k =
  if nonzero_counts (round_counts n k)
  then Some (Nat.iter n permute_round (x, k)) else None.
Proof.
  revert x k. induction n as [|n IH]; intros x k Hx Hk; [done|].
  cbn [shapashnik_loop round_counts nonzero_counts forallb].
  rewrite shapashnik_round_spec by done.
  destruct (Z.eqb_spec (Z.land k 7) 0) as [H0|H0]; [done|].
  destruct (permute_round_range (x, k) Hx Hk) as [Hx' Hk'].
  cbn [mbind option_bind negb andb].
  unfold permute_round at 1. cbn [fst snd].
  rewrite IH; [| apply Hx' | apply Hk'].
  rewrite Nat.iter_succ_r. reflexivity.
Qed.

(** [shapashnik] against the ten rounds of the specification. *)
Lemma shapashnik_spec x k :
  is_u32 x -> is_u32 k ->
  shapashnik x k =
  if nonzero_counts (round_counts 10 k) then Some (permute x k) else None.
Proof.
  intros Hx Hk. unfold shapashnik, permute.
  rewrite shapashnik_loop_spec by done.
  destruct (nonzero_counts _); reflexivity.
Qed.

End Shapashnik.

Section Injective.
Import Spec.

Lemma rotl32_inj a b c :
  is_u32 a -> is_u32 b -> 0 <= c < 32 -> rotl32 a c = rotl32 b c -> a = b.
Proof.
  intros Ha Hb Hc Heq. destruct (Z.eq_dec c 0) as [->|Hne].
  - by rewrite !rotl32_zero in Heq.
  - rewrite <- !rotate_value_rotl32 in Heq by (done || lia).
    rewrite <- (rotate_value_inverse a c), <- (rotate_value_inverse b c)
      by (done || lia).
    by rewrite Heq.
Qed.

Lemma swap_halves_inj a b :
  is_u32 a -> is_u32 b -> swap_halves a = swap_halves b -> a = b.
Proof.
  intros Ha Hb. rewrite !swap_halves_rotate by done.
  rewrite !rotate_value_rotl32 by (done || lia).
  apply rotl32_inj; (done || lia).
Qed.

Lemma permute_rounds_inj n x y k :
  is_u32 x -> is_u32 y -> is_u32 k ->
  (Nat.iter n permute_round (x, k)).1 = (Nat.iter n permute_round (y, k)).1 ->
  x = y.
Proof.
  revert x y k. induction n as [|n IH]; intros x y k Hx Hy Hk; [done|].
  rewrite !Nat.iter_succ_r. unfold permute_round at 2 4. cbn [fst snd].
  intros Heq. apply IH in Heq.
  - pose proof (key_count_range k).
    apply rotl32_inj in Heq; try lia; try by apply swap_halves_range.
    by apply swap_halves_inj.
  - apply rotl32_range; [by apply swap_halves_range | pose proof (key_count_range k); lia].
  - apply rotl32_range; [by apply swap_halves_range | pose proof (key_count_range k); lia].
  - apply rotl32_range; [done | lia].
Qed.

Lemma permute_inj x y k :
  is_u32 x -> is_u32 y -> is_u32 k -> permute x k = permute y k -> x = y.
Proof. unfold permute. apply permute_rounds_inj. Qed.

End Injective.

(** C10 (amended).  For every fixed 32-bit key [k], [shapashnik(x, k)] is
    injective in [x] on the 32-bit words on which the call is defined: two
    words with the same result are equal.  Each round, a half-word swap
    followed by a left rotation, is invertible, and the rotation counts
    depend on the key alone. *)
Theorem shapashnik_injective (k x y r : Z) :
  is_u32 k -> is_u32 x -> is_u32 y ->
  shapashnik x k = Some r -> shapashnik y k = Some r -> x = y.
Proof.
  intros Hk Hx Hy Hxr Hyr.
  rewrite shapashnik_spec in Hxr, Hyr by assumption.
  destruct (Spec.nonzero_counts _); [|discriminate].
  apply (permute_inj x y k); [assumption..|].
  rewrite <- Hyr in Hxr. injection Hxr as Heq. exact Heq.
Qed.

Lemma shapashnik_injective_witness :
  shapashnik 0x12345678 0xFFFFFFFF = Some 0x8D159E04
  /\ 0x12345678 = 0x12345678.
Proof.
  split; [reflexivity|].
  apply (shapashnik_injective 0xFFFFFFFF 0x12345678 0x12345678 0x8D159E04);
    try (unfold is_u32; lia); reflexivity.
Defined.

(** C3.  [shapashnik(0x12345678, 0x12345678)], the call made by the self
    test of the source, has no defined result: the key ends in three zero
    bits, so the first round calls [rotate] with a count of 0.  Ten rounds
    of the specified transform give [0xF02468AC]. *)
Theorem shapashnik_zero_count_undefined :
  shapashnik 0x12345678 0x12345678 = None
  /\ Z.land 0x12345678 0x7 = 0
  /\ Spec.permute 0x12345678 0x12345678 = 0xF02468AC.
Proof. vm_compute. repeat split. Qed.

(** ** The digest *)

Section Suchoi.
Import Spec.

Lemma lowerNibble_char cs b :
  lowerNibble (char_value cs b) = lower_nibble b.
Proof. destruct cs, b; reflexivity. Qed.

Lemma upperNibble_char cs b :
  upperNibble (char_value cs b) =
  if char_in_range cs b then upper_nibble b else 0xF0 + upper_nibble b.
Proof. destruct cs, b; reflexivity. Qed.

Lemma upper_nibble_range b : 0 <= upper_nibble b < 16.
Proof. destruct b; vm_compute; split; congruence. Qed.

Lemma lower_nibble_range b : 0 <= lower_nibble b < 16.
Proof. destruct b; vm_compute; split; congruence. Qed.

(** The table of the code holds the constants of the specification. *)
Lemma c_pi_sbox_table : c_pi = sbox_table.
Proof. reflexivity. Qed.

Lemma c_pi_in_bounds n :
  0 <= n < 16 -> c_pi !! Z.to_nat n = Some (sbox n) /\ is_u32 (sbox n).
Proof.
  intros Hn. unfold sbox.
  assert (Hcases : (Z.to_nat n < 16)%nat) by lia.
  revert Hcases. generalize (Z.to_nat n). intros m Hm.
  do 16 (destruct m as [|m]; [split; [reflexivity | unfold is_u32; simpl; lia]|]).
  lia.
Qed.

Lemma c_pi_out_of_bounds n : 16 <= n -> c_pi !! Z.to_nat n = None.
Proof. intros Hn. apply lookup_ge_None. simpl. lia. Qed.

Lemma rotate31_code s :
  is_u32 s -> Z.lor (lsl32 s 31) (lsr32 s 1) = rotl32 s 31.
Proof. intros Hs. apply (rotate_value_rotl32 s 31); [done | lia]. Qed.

Lemma fold_octet_range state b : is_u32 state -> is_u32 (fold_octet state b).
Proof.
  intros Hs. unfold fold_octet.
  destruct (c_pi_in_bounds _ (upper_nibble_range b)) as [_ Hu].
  destruct (c_pi_in_bounds _ (lower_nibble_range b)) as [_ Hl].
  apply rotl32_range; [|lia]. apply is_u32_lxor; [|done].
  apply rotl32_range; [|lia]. by apply is_u32_lxor.
Qed.

(** The fold on an octet that is present in the input: defined exactly
    when the [char] value of the octet is the octet. *)
Lemma suchoi_fold_spec cs input i state b :
  is_u32 state -> input !! Z.to_nat i = Some b ->
  suchoi_fold cs input i state =
  if char_in_range cs b then Some (fold_octet state b) else None.
Proof.
  intros Hs Hb. unfold suchoi_fold, fold_octet. rewrite Hb.
  cbn [mbind option_bind].
  rewrite upperNibble_char, lowerNibble_char.
  destruct (c_pi_in_bounds _ (upper_nibble_range b)) as [Hu Hur].
  destruct (c_pi_in_bounds _ (lower_nibble_range b)) as [Hl Hlr].
  destruct (char_in_range cs b).
  - rewrite Hu. cbn [mbind option_bind]. rewrite Hl. cbn [mbind option_bind].
    rewrite (rotate31_code (Z.lxor state (sbox (upper_nibble b))))
      by (apply is_u32_lxor; assumption).
    rewrite rotate31_code; [reflexivity|].
    apply is_u32_lxor; [|assumption].
    apply rotl32_range; [|lia]. apply is_u32_lxor; assumption.
  - rewrite (c_pi_out_of_bounds (0xF0 + upper_nibble b)); [reflexivity|].
    pose proof (upper_nibble_range b). lia.
Qed.

(** The loop body on an octet that is present in the input. *)
Lemma suchoi_body_spec cs input i state b :
  is_u32 state -> input !! Z.to_nat i = Some b ->
  suchoi_body cs input i state =
  if char_in_range cs b
  then (if Z.land i 0xf =? 0xf
        then shapashnik (fold_octet state b) (fold_octet state b)
        else Some (fold_octet state b))
  else None.
Proof.
  intros Hs Hb. unfold suchoi_body.
  rewrite (suchoi_fold_spec cs input i state b Hs Hb).
  destruct (char_in_range cs b); reflexivity.
Qed.

Lemma digest_from_nil i state : digest_from i state [] = state.
Proof. reflexivity. Qed.

Lemma digest_from_cons i state b rest :
  digest_from i state (b :: rest) =
  digest_from (i + 1) (digest_step i state b) rest.
Proof. reflexivity. Qed.

Lemma digest_step_fold i state b :
  digest_step i state b =
  if Z.land i 0xF =? 0xF
  then permute (fold_octet state b) (fold_octet state b)
  else fold_octet state b.
Proof. reflexivity. Qed.

Lemma digest_step_range i state b : is_u32 state -> is_u32 (digest_step i state b).
Proof.
  intros Hs. rewrite digest_step_fold.
  pose proof (fold_octet_range state b Hs) as Hf.
  destruct (_ =? _); [|done].
  unfold permute.
  assert (Hiter : forall n s, is_u32 s.1 -> is_u32 s.2 ->
            is_u32 (Nat.iter n permute_round s).1 /\ is_u32 (Nat.iter n permute_round s).2).
  { induction n as [|n IH]; intros s H1 H2; [done|].
    cbn [Nat.iter nat_rect]. apply permute_round_range; by apply IH. }
  by apply Hiter.
Qed.

(** Soundness of the loop: when the remaining iterations are defined,
    their result is the reference digest of the remaining octets. *)
Lemma suchoi_loop_sound cs seen rest state r :
  is_u32 state ->
  suchoi_loop cs (seen ++ rest) (length rest) (Z.of_nat (length seen)) state
    = Some r ->
  r = digest_from (Z.of_nat (length seen)) state rest.
Proof.
  revert seen state. induction rest as [|b rest IH]; intros seen state Hs.
  - rewrite digest_from_nil. cbn. congruence.
  - rewrite digest_from_cons. cbn [length suchoi_loop].
    rewrite (suchoi_body_spec cs _ _ state b Hs)
      by (rewrite Nat2Z.id; apply list_lookup_middle; reflexivity).
    intros Hrun.
    assert (Hstep : ∃ s, (if char_in_range cs b
        then (if Z.land (Z.of_nat (length seen)) 0xf =? 0xf
              then shapashnik (fold_octet state b) (fold_octet state b)
              else Some (fold_octet state b)) else None) = Some s).
    { destruct (if char_in_range cs b then _ else _); [eauto | done]. }
    destruct Hstep as [s Hstep]. rewrite Hstep in Hrun. cbn [mbind option_bind] in Hrun.
    assert (Hsd : s = digest_step (Z.of_nat (length seen)) state b).
    { rewrite digest_step_fold. destruct (char_in_range cs b); [|done].
      destruct (_ =? _); [|congruence].
      pose proof (fold_octet_range state b Hs) as Hf.
      rewrite shapashnik_spec in Hstep by done.
      destruct (nonzero_counts _); congruence. }
    subst s.
    replace (Z.of_nat (length seen) + 1) with (Z.of_nat (length (seen ++ [b])))
      in * by (rewrite length_app; simpl; lia).
    replace (seen ++ b :: rest) with ((seen ++ [b]) ++ rest) in Hrun
      by (by rewrite <- app_assoc).
    apply IH in Hrun; [done|]. by apply digest_step_range.
Qed.

(** Every defined result of [suchoi] is the reference digest. *)
Lemma suchoi_sound cs input r :
  suchoi cs input (Z.of_nat (length input)) = Some r -> r = digest input.
Proof.
  unfold suchoi, digest. rewrite Nat2Z.id. intros H.
  apply (suchoi_loop_sound cs [] input 0 r); [unfold is_u32; lia | done].
Qed.

End Suchoi.

Section ShortInputs.
Import Spec.

(** Inputs of fewer than 16 octets never reach the permutation: the digest
    is defined exactly when every octet is in the range of [char]. *)
Lemma no_remix_before_16 i : 0 <= i < 15 -> (Z.land i 0xf =? 0xf) = false.
Proof.
  intros Hi. change 15 with (Z.ones 4) at 1. rewrite Z.land_ones by lia.
  rewrite Z.mod_small by lia. apply Z.eqb_neq. lia.
Qed.

Lemma suchoi_loop_short cs seen rest state :
  is_u32 state -> (length seen + length rest < 16)%nat ->
  suchoi_loop cs (seen ++ rest) (length rest) (Z.of_nat (length seen)) state =
  if forallb (char_in_range cs) rest
  then Some (digest_from (Z.of_nat (length seen)) state rest) else None.
Proof.
  revert seen state. induction rest as [|b rest IH]; intros seen state Hs Hlen; [done|].
  rewrite digest_from_cons. cbn [length suchoi_loop forallb] in *.
  rewrite (suchoi_body_spec cs _ _ state b Hs)
    by (rewrite Nat2Z.id; apply list_lookup_middle; reflexivity).
  rewrite digest_step_fold, no_remix_before_16 by lia.
  destruct (char_in_range cs b); [|done].
  cbn [mbind option_bind andb].
  replace (Z.of_nat (length seen) + 1) with (Z.of_nat (length (seen ++ [b])))
    by (rewrite length_app; simpl; lia).
  replace (seen ++ b :: rest) with ((seen ++ [b]) ++ rest)
    by (by rewrite <- app_assoc).
  apply IH; [by apply fold_octet_range | rewrite length_app; simpl; lia].
Qed.

Lemma suchoi_short cs input :
  (length input < 16)%nat ->
  suchoi cs input (Z.of_nat (length input)) =
  if forallb (char_in_range cs) input then Some (digest input) else None.
Proof.
  intros Hlen. unfold suchoi, digest. rewrite Nat2Z.id.
  apply (suchoi_loop_short cs [] input 0); [unfold is_u32; lia | simpl; lia].
Qed.
End ShortInputs.

(** C4.  For every input buffer, also an empty one of which no octet can be
    read, [suchoi(input, 0)] is defined and is the initial state 0. *)
Theorem suchoi_empty (cs : char_signedness) (input : list byte) :
  suchoi cs input 0 = Some 0.
Proof. reflexivity. Qed.

(** C2.  Where [char] is signed, the octet [0x80] is read as -128;
    [octet >> 4] is -8 and [upperNibble] is [0xF8], not bits 4-7 of the
    octet ([0x8]), and the read [c_pi[0xF8]] is outside the 16-entry table. *)
Theorem suchoi_high_octet_out_of_bounds :
  char_value SignedChar x80 = -128
  /\ upperNibble (char_value SignedChar x80) = 0xF8
  /\ Spec.upper_nibble x80 = 0x8
  /\ c_pi !! Z.to_nat 0xF8 = None
  /\ suchoi_fold SignedChar [x80] 0 0 = None.
Proof. vm_compute. repeat split. Qed.

(** C1.  [suchoi] has no defined result on the 1-octet input [0x80] where
    [char] is signed (the s-box is read out of bounds), nor, whatever the
    signedness of [char], on 16 octets ['a'] (the state after the 16th
    octet is 0, and [shapashnik(0, 0)] rotates by 0 bits); the reference
    computation gives [0xC6BF32DC] and [0]. *)
Theorem suchoi_undefined_inputs :
  suchoi SignedChar [x80] 1 = None
  /\ Spec.digest [x80] = 0xC6BF32DC
  /\ (forall cs, suchoi cs (replicate 16 x61) 16 = None)
  /\ Spec.digest (replicate 16 x61) = 0.
Proof. repeat split; try (intros []); vm_compute; reflexivity. Qed.

(** C10 (counterexample).  The re-mixing step collapses two distinct
    accumulator states of the digest: the inputs [remix_input_a] and
    [remix_input_b] reach the states [0x3DDD3A3B] and [0x8ECF774E] after
    their 16th octet, and [shapashnik(state, state)] maps both to
    [0xEE9D1D9E], the digest of both inputs.  All octets are below 0x80, so
    the signedness of [char] plays no part.  The states [0x33333333] and
    [0xCCCCCCCC] collapse in the same way. *)
Lemma remix_collapses_states :
  shapashnik 0x33333333 0x33333333 = Some 0x33333333
  /\ shapashnik 0xCCCCCCCC 0xCCCCCCCC = Some 0x33333333
  /\ (s ← suchoi SignedChar remix_input_a 15;
      suchoi_fold SignedChar remix_input_a 15 s) = Some 0x3DDD3A3B
  /\ (s ← suchoi SignedChar remix_input_b 15;
      suchoi_fold SignedChar remix_input_b 15 s) = Some 0x8ECF774E
  /\ shapashnik 0x3DDD3A3B 0x3DDD3A3B = Some 0xEE9D1D9E
  /\ shapashnik 0x8ECF774E 0x8ECF774E = Some 0xEE9D1D9E
  /\ suchoi SignedChar remix_input_a 16 = Some 0xEE9D1D9E
  /\ suchoi SignedChar remix_input_b 16 = Some 0xEE9D1D9E
  /\ suchoi UnsignedChar remix_input_a 16 = Some 0xEE9D1D9E
  /\ suchoi UnsignedChar remix_input_b 16 = Some 0xEE9D1D9E.
Proof. vm_compute. repeat split. Qed.

(** * Further properties *)

(** ** Rotation *)

Section RotationBits.
Import Spec.

Lemma rotl32_bits w c i :
  is_u32 w -> 0 <= c < 32 -> 0 <= i < 32 ->
  Z.testbit (rotl32 w c) i = Z.testbit w ((i - c) mod 32).
Proof.
  intros Hw Hc Hi. destruct (Z.eq_dec c 0) as [->|Hne].
  - rewrite rotl32_zero by assumption. f_equal.
    rewrite Z.sub_0_r, Z.mod_small; lia.
  - rewrite rotl32_testbit by (assumption || lia).
    destruct (Z.ltb_spec i c).
    + f_equal. replace (i - c) with (i + 32 - c + (-1) * 32) by lia.
      rewrite Z.mod_add by lia. rewrite Z.mod_small; lia.
    + destruct (Z.ltb_spec i 32); [|lia]. f_equal. rewrite Z.mod_small; lia.
Qed.

Lemma u32_eq_bits a b :
  is_u32 a -> is_u32 b ->
  (forall i, 0 <= i < 32 -> Z.testbit a i = Z.testbit b i) -> a = b.
Proof.
  intros Ha Hb Hbits. apply Z.bits_inj'. intros i Hi.
  destruct (Z.lt_ge_cases i 32).
  - apply Hbits. lia.
  - by rewrite !is_u32_high_bits by (assumption || lia).
Qed.

Lemma rotl32_rotl32 w a b :
  is_u32 w -> 0 <= a < 32 -> 0 <= b < 32 ->
  rotl32 (rotl32 w a) b = rotl32 w ((a + b) mod 32).
Proof.
  intros Hw Ha Hb.
  pose proof (Z.mod_pos_bound (a + b) 32 ltac:(lia)) as Hab.
  apply u32_eq_bits.
  - apply rotl32_range; [by apply rotl32_range | done].
  - by apply rotl32_range.
  - intros i Hi.
    pose proof (Z.mod_pos_bound (i - b) 32 ltac:(lia)) as Hib.
    rewrite !rotl32_bits by (assumption || by apply rotl32_range).
    f_equal. clear -Ha Hb Hi. Z.div_mod_to_equations. lia.
Qed.

End RotationBits.

(** X1.  For a count [k] in 1..31, [rotate(w, k)] is defined, its result is
    a 32-bit word, and bit [i] of the result is bit [(i - k) mod 32] of
    [w]: a circular left rotation by [k] positions. *)
Theorem rotate_rotates_bits (w k : Z) :
  is_u32 w -> 0 < k < 32 ->
  exists r, rotate w k = Some r /\ is_u32 r
    /\ forall i, 0 <= i < 32 -> Z.testbit r i = Z.testbit w ((i - k) mod 32).
Proof.
  intros Hw Hk. exists (rotate_value w k). split; [by apply rotate_in_range|].
  split; [by apply rotate_value_range|].
  intros i Hi. rewrite rotate_value_rotl32 by assumption.
  apply rotl32_bits; (assumption || lia).
Qed.

Lemma rotate_rotates_bits_witness :
  exists r, rotate 0x80000001 4 = Some r /\ is_u32 r
    /\ forall i, 0 <= i < 32 ->
         Z.testbit r i = Z.testbit 0x80000001 ((i - 4) mod 32).
Proof. apply (rotate_rotates_bits 0x80000001 4); unfold is_u32; lia. Defined.

(** X2.  [rotate(w, count)] has a defined result exactly when the count,
    taken as a [uint8_t], is in 1..31: the counts 0 and 32..255 shift by an
    amount outside 0..31. *)
Theorem rotate_defined_iff (w count : Z) :
  is_Some (rotate w count) <-> 0 < count mod 256 < 32.
Proof.
  rewrite rotate_defined. change (u8 count) with (count mod 256).
  destruct (Z.ltb_spec 0 (count mod 256)); destruct (Z.ltb_spec (count mod 256) 32);
    cbn [andb]; split; intros H'; try lia; try (by eexists);
    destruct H' as [? [=]].
Qed.

(** X3.  Rotations compose: for counts [a] and [b] in 1..31 whose sum is
    not 32, rotating by [a] and then by [b] is rotating by
    [(a + b) mod 32]. *)
Theorem rotate_rotate (w a b : Z) :
  is_u32 w -> 0 < a < 32 -> 0 < b < 32 -> a + b <> 32 ->
  (r ← rotate w a; rotate r b) = rotate w ((a + b) mod 32).
Proof.
  intros Hw Ha Hb Hab.
  assert (0 < (a + b) mod 32 < 32) by (Z.div_mod_to_equations; lia).
  rewrite !rotate_in_range by lia. cbn [mbind option_bind].
  rewrite rotate_in_range by lia. f_equal.
  rewrite !rotate_value_rotl32 by (assumption || lia || by apply rotate_value_range).
  apply rotl32_rotl32; (assumption || lia).
Qed.

Lemma rotate_rotate_witness :
  (r ← rotate 0x12345678 20; rotate r 20) = rotate 0x12345678 ((20 + 20) mod 32).
Proof. apply (rotate_rotate 0x12345678 20 20); unfold is_u32; lia. Defined.

(** ** The bit-difference counter, continued *)

Section Counting.
Import Spec.

Lemma count_positions_range p q from n :
  (forall i, from <= i < from + Z.of_nat n -> p i = q i) ->
  count_positions p from n = count_positions q from n.
Proof.
  revert from. induction n as [|n IH]; intros from Hpq; [done|].
  cbn [count_positions]. rewrite Hpq by lia. rewrite (IH (from + 1)); [done|].
  intros i Hi. apply Hpq. lia.
Qed.

Lemma count_positions_app p from n m :
  count_positions p from (n + m) =
  count_positions p from n + count_positions p (from + Z.of_nat n) m.
Proof.
  revert from. induction n as [|n IH]; intros from.
  - cbn [Nat.add count_positions].
    replace (from + Z.of_nat 0) with from by lia. lia.
  - cbn [Nat.add count_positions]. rewrite IH.
    replace (from + 1 + Z.of_nat n) with (from + Z.of_nat (S n)) by lia. lia.
Qed.

Lemma count_positions_offset p from n d :
  count_positions (fun i => p (i + d)) from n = count_positions p (from + d) n.
Proof.
  revert from. induction n as [|n IH]; intros from; [done|].
  cbn [count_positions]. rewrite IH. do 2 f_equal. lia.
Qed.

Lemma count_positions_full_iff p from n :
  count_positions p from n = Z.of_nat n <->
  forall i, from <= i < from + Z.of_nat n -> p i = true.
Proof.
  revert from. induction n as [|n IH]; intros from.
  - split; [intros _ i Hi; lia | done].
  - cbn [count_positions].
    pose proof (count_positions_bounds p (from + 1) n) as Hb.
    split.
    + intros Hc i Hi. destruct (p from) eqn:Hp; [|lia].
      destruct (Z.eq_dec i from) as [->|Hne]; [done|].
      apply (IH (from + 1)); lia.
    + intros Hall. rewrite (Hall from) by lia.
      assert (count_positions p (from + 1) n = Z.of_nat n) as ->; [|lia].
      apply IH. intros i Hi. apply Hall. lia.
Qed.

Lemma count_positions_empty p from n :
  (forall i, from <= i < from + Z.of_nat n -> p i = false) ->
  count_positions p from n = 0.
Proof.
  revert from. induction n as [|n IH]; intros from Hnone; [done|].
  cbn [count_positions]. rewrite (Hnone from) by lia.
  rewrite IH; [done|]. intros i Hi. apply Hnone. lia.
Qed.

(** A rotation of the positions 0..31 does not change a count. *)
Lemma count_positions_rotated p c :
  0 <= c < 32 ->
  count_positions (fun i => p ((i - c) mod 32)) 0 32 = count_positions p 0 32.
Proof.
  intros Hc.
  replace (count_positions p 0 32)
    with (count_positions p 0 (Z.to_nat (32 - c) + Z.to_nat c))
    by (f_equal; lia).
  replace 32%nat with (Z.to_nat c + Z.to_nat (32 - c))%nat by lia.
  rewrite !count_positions_app. rewrite !Z2Nat.id by lia.
  rewrite (count_positions_range _ (fun i => p (i + (32 - c))) 0).
  2:{ intros i Hi. f_equal. replace (i - c) with (i + (32 - c) + (-1) * 32) by lia.
      rewrite Z.mod_add by lia. apply Z.mod_small. lia. }
  rewrite (count_positions_range _ (fun i => p (i + (- c))) (0 + c)).
  2:{ intros i Hi. f_equal. replace (i + - c) with (i - c) by lia.
      apply Z.mod_small. lia. }
  rewrite !count_positions_offset.
  replace (0 + c + - c) with 0 by lia.
  replace (0 + (32 - c)) with (32 - c) by lia. lia.
Qed.

Lemma equal_bits_sym a b : equal_bits a b = equal_bits b a.
Proof.
  unfold equal_bits. apply count_positions_range. intros i _.
  unfold same_bit. by destruct (Z.testbit a i), (Z.testbit b i).
Qed.

Lemma equal_bits_lxor a b c :
  equal_bits (Z.lxor a c) (Z.lxor b c) = equal_bits a b.
Proof.
  unfold equal_bits. apply count_positions_range. intros i _.
  unfold same_bit. rewrite !Z.lxor_spec.
  by destruct (Z.testbit a i), (Z.testbit b i), (Z.testbit c i).
Qed.

Lemma equal_bits_rotl32 a b c :
  is_u32 a -> is_u32 b -> 0 <= c < 32 ->
  equal_bits (rotl32 a c) (rotl32 b c) = equal_bits a b.
Proof.
  intros Ha Hb Hc. unfold equal_bits.
  rewrite <- (count_positions_rotated (same_bit a b) c) by assumption.
  apply count_positions_range. intros i Hi. unfold same_bit.
  by rewrite !rotl32_bits by (assumption || lia).
Qed.

Lemma equal_bits_flip a i :
  0 <= i < 32 -> equal_bits a (Z.lxor a (2 ^ i)) = 31.
Proof.
  intros Hi. unfold equal_bits.
  replace 32%nat with (Z.to_nat i + (1 + Z.to_nat (31 - i)))%nat by lia.
  rewrite !count_positions_app. rewrite Z2Nat.id by lia.
  assert (Hother : forall j, 0 <= j -> j <> i ->
            same_bit a (Z.lxor a (2 ^ i)) j = true).
  { intros j Hj Hne. unfold same_bit.
    rewrite Z.lxor_spec, Z.pow2_bits_false by lia.
    by destruct (Z.testbit a j). }
  assert (Hfull : forall from n, 0 <= from ->
            (forall j, from <= j < from + Z.of_nat n -> j <> i) ->
            count_positions (same_bit a (Z.lxor a (2 ^ i))) from n = Z.of_nat n).
  { intros from n Hfrom Hne. apply count_positions_full_iff.
    intros j Hj. apply Hother; [lia | by apply Hne]. }
  rewrite (Hfull 0 (Z.to_nat i)) by lia.
  rewrite (Hfull (0 + i + Z.of_nat 1) (Z.to_nat (31 - i))) by lia.
  cbn [count_positions]. unfold same_bit at 1.
  rewrite Z.lxor_spec. replace (0 + i) with i by lia.
  rewrite Z.pow2_bits_true by lia.
  destruct (Z.testbit a i); cbn; lia.
Qed.

End Counting.

(** X4.  [bit_diff] is symmetric in its arguments. *)
Theorem bit_diff_sym (a b : Z) : bit_diff a b = bit_diff b a.
Proof. rewrite !bit_diff_equal_bits. apply equal_bits_sym. Qed.

(** X5.  On 32-bit words, [bit_diff(a, b)] is 32 exactly when [a] and [b]
    are equal. *)
Theorem bit_diff_32_iff_equal (a b : Z) :
  is_u32 a -> is_u32 b -> (bit_diff a b = 32 <-> a = b).
Proof.
  intros Ha Hb. rewrite bit_diff_equal_bits. unfold Spec.equal_bits.
  rewrite (count_positions_full_iff _ 0 32). split.
  - intros Hall. apply u32_eq_bits; [done..|]. intros i Hi.
    specialize (Hall i ltac:(lia)). unfold Spec.same_bit in Hall.
    by apply Bool.eqb_prop.
  - intros -> i _. apply Bool.eqb_reflx.
Qed.

Lemma bit_diff_32_iff_equal_witness :
  bit_diff 0xCAFE 0xCAFE = 32 <-> 0xCAFE = 0xCAFE.
Proof. apply (bit_diff_32_iff_equal 0xCAFE 0xCAFE); unfold is_u32; lia. Defined.

(** X6.  Two words that differ in exactly one of the 32 bit positions have a
    [bit_diff] of 31. *)
Theorem bit_diff_one_bit_flipped (a i : Z) :
  0 <= i < 32 -> bit_diff a (Z.lxor a (2 ^ i)) = 31.
Proof. intros Hi. rewrite bit_diff_equal_bits. by apply equal_bits_flip. Qed.

Lemma bit_diff_one_bit_flipped_witness :
  bit_diff 0x12345678 (Z.lxor 0x12345678 (2 ^ 31)) = 31.
Proof. apply (bit_diff_one_bit_flipped 0x12345678 31). lia. Defined.

(** X7.  [bit_diff] depends on its arguments only through their XOR:
    XOR-ing both with the same word does not change the count. *)
Theorem bit_diff_lxor_both (a b c : Z) :
  bit_diff (Z.lxor a c) (Z.lxor b c) = bit_diff a b.
Proof. rewrite !bit_diff_equal_bits. apply equal_bits_lxor. Qed.

(** X8.  Rotating two 32-bit words by the same count in 1..31 does not
    change their [bit_diff]. *)
Theorem bit_diff_rotate_both (a b k : Z) :
  is_u32 a -> is_u32 b -> 0 < k < 32 ->
  (ra ← rotate a k; rb ← rotate b k; Some (bit_diff ra rb))
  = Some (bit_diff a b).
Proof.
  intros Ha Hb Hk. rewrite !rotate_in_range by assumption.
  cbn [mbind option_bind]. f_equal.
  rewrite !rotate_value_rotl32 by assumption.
  rewrite !bit_diff_equal_bits. apply equal_bits_rotl32; (assumption || lia).
Qed.

Lemma bit_diff_rotate_both_witness :
  (ra ← rotate 0xF0F0 7; rb ← rotate 0x1234 7; Some (bit_diff ra rb))
  = Some (bit_diff 0xF0F0 0x1234).
Proof.
  apply (bit_diff_rotate_both 0xF0F0 0x1234 7); unfold is_u32; lia.
Defined.

(** ** The permutation function, continued *)

Section ShapashnikRotation.
Import Spec.

Lemma swap_halves_rotl32 x : is_u32 x -> swap_halves x = rotl32 x 16.
Proof.
  intros Hx. rewrite swap_halves_rotate by assumption.
  apply rotate_value_rotl32; [assumption | lia].
Qed.

Lemma round_counts_range n k : Forall (fun c => 0 <= c < 8) (round_counts n k).
Proof.
  revert k. induction n as [|n IH]; intros k; cbn [round_counts].
  - constructor.
  - constructor; [apply key_count_range | apply IH].
Qed.

(** [n] rounds rotate the working value by 16 bits per round plus the
    counts of the rounds. *)
Lemma permute_rounds_rotation n x k :
  is_u32 x -> is_u32 k ->
  (Nat.iter n permute_round (x, k)).1 =
  rotl32 x ((16 * Z.of_nat n + fold_right Z.add 0 (round_counts n k)) mod 32).
Proof.
  revert x k. induction n as [|n IH]; intros x k Hx Hk.
  - cbn. by rewrite rotl32_zero.
  - rewrite Nat.iter_succ_r. unfold permute_round at 2. cbn [fst snd].
    pose proof (key_count_range k) as Hc.
    assert (Hx' : is_u32 (rotl32 (swap_halves x) (Z.land k 7)))
      by (apply rotl32_range; [by apply swap_halves_range | lia]).
    assert (Hk' : is_u32 (rotl32 k 3)) by (apply rotl32_range; [done | lia]).
    rewrite (IH _ _ Hx' Hk'). cbn [round_counts fold_right].
    set (rest := fold_right Z.add 0 (round_counts n (rotl32 k 3))).
    set (c := Z.land k 7) in *.
    rewrite swap_halves_rotl32 by assumption.
    pose proof (Z.mod_pos_bound (16 + c) 32 ltac:(lia)).
    pose proof (Z.mod_pos_bound (16 * Z.of_nat n + rest) 32 ltac:(lia)).
    rewrite (rotl32_rotl32 x 16 c) by (assumption || lia).
    rewrite rotl32_rotl32 by (assumption || lia).
    f_equal. rewrite Nat2Z.inj_succ. clearbody rest c.
    Z.div_mod_to_equations. lia.
Qed.

Lemma permute_rotation x k :
  is_u32 x -> is_u32 k -> permute x k = rotl32 x (shapashnik_rotation k).
Proof.
  intros Hx Hk. unfold permute, shapashnik_rotation.
  rewrite permute_rounds_rotation by assumption. f_equal.
  change (16 * Z.of_nat 10) with (5 * 32).
  rewrite Z.add_comm. apply Z.mod_add. lia.
Qed.

Lemma shapashnik_rotation_range k : 0 <= shapashnik_rotation k < 32.
Proof. unfold shapashnik_rotation. apply Z.mod_pos_bound. lia. Qed.

Lemma shapashnik_value x k r :
  is_u32 x -> is_u32 k -> shapashnik x k = Some r ->
  r = rotl32 x (shapashnik_rotation k).
Proof.
  intros Hx Hk. rewrite shapashnik_spec by assumption.
  destruct (nonzero_counts _); [|discriminate].
  intros [= <-]. by apply permute_rotation.
Qed.

(** The rotated key of round [j] and its count, as bits of the key. *)
Lemma land7_rotl32 k c :
  is_u32 k -> 3 <= c < 32 -> Z.land (rotl32 k c) 7 = (k / 2 ^ (32 - c)) mod 8.
Proof.
  unfold is_u32. intros Hk Hc. change 7 with (Z.ones 3).
  rewrite Z.land_ones by lia. change (2 ^ 3) with 8. unfold rotl32.
  assert (H32 : 2 ^ 32 = 2 ^ (32 - c) * 2 ^ c)
    by (rewrite <- Z.pow_add_r by lia; f_equal; lia).
  assert (H8 : 2 ^ c = 2 ^ (c - 3) * 8)
    by (change 8 with (2 ^ 3); rewrite <- Z.pow_add_r by lia; f_equal; lia).
  assert (0 < 2 ^ c) by (apply Z.pow_pos_nonneg; lia).
  assert (0 < 2 ^ (32 - c)) by (apply Z.pow_pos_nonneg; lia).
  rewrite H32 at 1 2. rewrite Z.mul_mod_distr_r by lia.
  rewrite Z.div_mul_cancel_r by lia.
  rewrite H8 at 1. rewrite Z.mul_assoc, Z.add_comm.
  apply Z.mod_add. lia.
Qed.

Lemma round_counts_rotated n k c :
  is_u32 k -> 3 <= c -> c + 3 * Z.of_nat n <= 32 ->
  round_counts n (rotl32 k c) =
  map (fun j => (k / 2 ^ (32 - c - 3 * Z.of_nat j)) mod 8) (seq 0 n).
Proof.
  intros Hk. revert c. induction n as [|n IH]; intros c Hc Hn; [done|].
  cbn [round_counts seq map]. f_equal.
  - rewrite land7_rotl32 by (assumption || lia). do 3 f_equal. lia.
  - destruct n as [|n]; [done|].
    rewrite rotl32_rotl32 by (assumption || lia).
    rewrite (Z.mod_small (c + 3)) by lia. rewrite IH by lia.
    rewrite <- seq_shift, map_map. apply map_ext. intros j.
    do 3 f_equal. lia.
Qed.

Lemma round_counts_key_groups k :
  is_u32 k -> round_counts 10 k = key_groups k.
Proof.
  intros Hk. change (round_counts 10 k)
    with (Z.land k 7 :: round_counts 9 (rotl32 k 3)).
  rewrite round_counts_rotated by (assumption || lia).
  unfold key_groups. f_equal.
  change 7 with (Z.ones 3). by rewrite Z.land_ones by lia.
Qed.

Lemma key_groups_lxor k m :
  (m = 8 \/ m = 16) -> key_groups (Z.lxor k m) = key_groups k.
Proof.
  intros Hm. unfold key_groups.
  assert (Hlow : Z.lxor k m mod 8 = k mod 8).
  { change 8 with (2 ^ 3) at 1 2. rewrite <- !Z.land_ones by lia.
    apply Z.bits_inj'. intros i Hi. rewrite !Z.land_spec, Z.lxor_spec.
    destruct (Z.lt_ge_cases i 3).
    - assert (Z.testbit m i = false) as ->; [|by rewrite xorb_false_r].
      destruct Hm as [-> | ->].
      + change 8 with (2 ^ 3). apply Z.pow2_bits_false. lia.
      + change 16 with (2 ^ 4). apply Z.pow2_bits_false. lia.
    - rewrite Z.ones_spec_high by lia. by rewrite !andb_false_r. }
  assert (Hhigh : forall s, 5 <= s -> Z.lxor k m / 2 ^ s = k / 2 ^ s).
  { intros s Hs. rewrite <- !Z.shiftr_div_pow2 by lia. rewrite Z.shiftr_lxor.
    assert (Z.shiftr m s = 0) as ->; [|apply Z.lxor_0_r].
    rewrite Z.shiftr_div_pow2 by lia. apply Z.div_small.
    assert (2 ^ 5 <= 2 ^ s) by (apply Z.pow_le_mono_r; lia).
    destruct Hm as [-> | ->]; lia. }
  rewrite Hlow. cbn [map]. by rewrite !Hhigh by lia.
Qed.

End ShapashnikRotation.

(** X9.  [shapashnik] only rotates its input: whenever [shapashnik(x, k)]
    is defined, its result is a 32-bit word whose bit [i] is bit
    [(i - s) mod 32] of [x], where [s] is the sum of the ten rotation
    counts of the key modulo 32 (the ten half-word swaps cancel). *)
Theorem shapashnik_is_rotation (x k r : Z) :
  is_u32 x -> is_u32 k -> shapashnik x k = Some r ->
  is_u32 r /\
  forall i, 0 <= i < 32 ->
    Z.testbit r i = Z.testbit x ((i - shapashnik_rotation k) mod 32).
Proof.
  intros Hx Hk Hr. rewrite (shapashnik_value x k r Hx Hk Hr).
  pose proof (shapashnik_rotation_range k). split.
  - by apply rotl32_range.
  - intros i Hi. by apply rotl32_bits.
Qed.

Lemma shapashnik_is_rotation_witness :
  is_u32 0x8D159E04 /\
  forall i, 0 <= i < 32 ->
    Z.testbit 0x8D159E04 i =
    Z.testbit 0x12345678 ((i - shapashnik_rotation 0xFFFFFFFF) mod 32).
Proof.
  apply (shapashnik_is_rotation 0x12345678 0xFFFFFFFF 0x8D159E04);
    try (unfold is_u32; lia); reflexivity.
Defined.

(** X10.  [shapashnik] does not diffuse differences: under the same key,
    the results for two inputs agree in exactly as many bit positions as
    the inputs do. *)
Theorem shapashnik_preserves_bit_diff (x y k r s : Z) :
  is_u32 x -> is_u32 y -> is_u32 k ->
  shapashnik x k = Some r -> shapashnik y k = Some s ->
  bit_diff r s = bit_diff x y.
Proof.
  intros Hx Hy Hk Hr Hs.
  rewrite (shapashnik_value x k r Hx Hk Hr), (shapashnik_value y k s Hy Hk Hs).
  rewrite !bit_diff_equal_bits.
  apply equal_bits_rotl32; try assumption. apply shapashnik_rotation_range.
Qed.

Lemma shapashnik_preserves_bit_diff_witness :
  bit_diff 0x8D159E04 0x8D159E14 = bit_diff 0x12345678 0x52345678.
Proof.
  apply (shapashnik_preserves_bit_diff 0x12345678 0x52345678 0xFFFFFFFF);
    try (unfold is_u32; lia); reflexivity.
Defined.

Lemma nonzero_counts_Forall l :
  Spec.nonzero_counts l = true <-> Forall (fun g => g <> 0) l.
Proof.
  unfold Spec.nonzero_counts. induction l as [|g l IH]; cbn [forallb].
  - split; [constructor | done].
  - rewrite andb_true_iff, IH, Forall_cons.
    by destruct (Z.eqb_spec g 0); cbn; intuition.
Qed.

(** X11.  Whether [shapashnik(x, k)] is defined depends on the key alone:
    it is defined exactly when each of the ten 3-bit groups of [k] at the
    bit offsets 0, 29, 26, 23, 20, 17, 14, 11, 8 and 5 is nonzero. *)
Theorem shapashnik_defined_iff (x k : Z) :
  is_u32 x -> is_u32 k ->
  (is_Some (shapashnik x k) <-> Forall (fun g => g <> 0) (key_groups k)).
Proof.
  intros Hx Hk. rewrite shapashnik_spec by assumption.
  rewrite round_counts_key_groups by assumption.
  rewrite <- nonzero_counts_Forall.
  destruct (Spec.nonzero_counts (key_groups k)); split;
    try done; try (by eexists); try (by intros [? [=]]).
Qed.

Lemma shapashnik_defined_iff_witness :
  is_Some (shapashnik 0x12345678 0xFFFFFFFF)
  <-> Forall (fun g => g <> 0) (key_groups 0xFFFFFFFF).
Proof.
  apply (shapashnik_defined_iff 0x12345678 0xFFFFFFFF); unfold is_u32; lia.
Defined.

(** X12.  Bits 3 and 4 of the key are never used: flipping either of them
    changes neither whether [shapashnik(x, k)] is defined nor its result. *)
Theorem shapashnik_ignores_key_bits_3_4 (x k : Z) :
  is_u32 x -> is_u32 k ->
  shapashnik x (Z.lxor k 8) = shapashnik x k
  /\ shapashnik x (Z.lxor k 16) = shapashnik x k.
Proof.
  intros Hx Hk.
  assert (H : forall m, (m = 8 \/ m = 16) ->
            shapashnik x (Z.lxor k m) = shapashnik x k).
  { intros m Hm.
    assert (Hkm : is_u32 (Z.lxor k m))
      by (apply is_u32_lxor; [done | destruct Hm as [-> | ->]; unfold is_u32; lia]).
    rewrite !shapashnik_spec by assumption.
    rewrite !permute_rotation by assumption. unfold shapashnik_rotation.
    rewrite !round_counts_key_groups by assumption.
    by rewrite key_groups_lxor. }
  split; apply H; auto.
Qed.

Lemma shapashnik_ignores_key_bits_3_4_witness :
  shapashnik 0x12345678 (Z.lxor 0xFFFFFFFF 8) = shapashnik 0x12345678 0xFFFFFFFF
  /\ shapashnik 0x12345678 (Z.lxor 0xFFFFFFFF 16)
     = shapashnik 0x12345678 0xFFFFFFFF.
Proof.
  apply (shapashnik_ignores_key_bits_3_4 0x12345678 0xFFFFFFFF);
    unfold is_u32; lia.
Defined.

(** ** The digest, continued *)

Section SuchoiLoop.
Import Spec.

(** The loop body reads the input at its index only. *)
Lemma suchoi_body_lookup cs input input' i state :
  input !! Z.to_nat i = input' !! Z.to_nat i ->
  suchoi_body cs input i state = suchoi_body cs input' i state.
Proof. intros H. unfold suchoi_body, suchoi_fold. by rewrite H. Qed.

Lemma suchoi_body_absent cs input i state :
  input !! Z.to_nat i = None -> suchoi_body cs input i state = None.
Proof. intros H. unfold suchoi_body, suchoi_fold. by rewrite H. Qed.

Lemma shapashnik_range x k r :
  is_u32 x -> is_u32 k -> shapashnik x k = Some r -> is_u32 r.
Proof.
  intros Hx Hk Hr. rewrite (shapashnik_value x k r Hx Hk Hr).
  apply rotl32_range; [assumption | apply shapashnik_rotation_range].
Qed.

Lemma suchoi_body_range cs input i state r :
  is_u32 state -> suchoi_body cs input i state = Some r -> is_u32 r.
Proof.
  intros Hs. destruct (input !! Z.to_nat i) as [b|] eqn:Hb.
  - rewrite (suchoi_body_spec cs input i state b Hs Hb).
    pose proof (fold_octet_range state b Hs) as Hf.
    destruct (char_in_range cs b); [|discriminate].
    destruct (_ =? _).
    + by apply shapashnik_range.
    + by intros [= <-].
  - by rewrite suchoi_body_absent.
Qed.

Lemma suchoi_loop_range cs input n i state r :
  is_u32 state -> suchoi_loop cs input n i state = Some r -> is_u32 r.
Proof.
  revert i state. induction n as [|n IH]; intros i state Hs; cbn [suchoi_loop].
  - by intros [= <-].
  - destruct (suchoi_body cs input i state) as [s|] eqn:Hbody; [|discriminate].
    cbn [mbind option_bind]. apply IH. by apply (suchoi_body_range cs input i state).
Qed.

(** Octets after the last index of the loop are not read. *)
Lemma suchoi_loop_prefix cs input extra n i state :
  (i + n <= length input)%nat ->
  suchoi_loop cs (input ++ extra) n (Z.of_nat i) state =
  suchoi_loop cs input n (Z.of_nat i) state.
Proof.
  revert i state. induction n as [|n IH]; intros i state Hlen; [done|].
  cbn [suchoi_loop].
  rewrite (suchoi_body_lookup cs (input ++ extra) input)
    by (rewrite Nat2Z.id; apply lookup_app_l; lia).
  destruct (suchoi_body cs input (Z.of_nat i) state) as [s|]; [|done].
  cbn [mbind option_bind].
  replace (Z.of_nat i + 1) with (Z.of_nat (S i)) by lia. apply IH. lia.
Qed.

(** A loop that runs past the end of the input has no defined result. *)
Lemma suchoi_loop_past_end cs input n i state :
  (i <= length input < i + n)%nat ->
  suchoi_loop cs input n (Z.of_nat i) state = None.
Proof.
  revert i state. induction n as [|n IH]; intros i state Hlen; [lia|].
  cbn [suchoi_loop].
  destruct (Nat.eq_dec i (length input)) as [Heq|Hne].
  - rewrite suchoi_body_absent; [done|].
    rewrite Nat2Z.id. apply lookup_ge_None. lia.
  - destruct (suchoi_body cs input (Z.of_nat i) state) as [s|]; [|done].
    cbn [mbind option_bind].
    replace (Z.of_nat i + 1) with (Z.of_nat (S i)) by lia. apply IH. lia.
Qed.

(** The loop over [n + m] octets is the loop over [n] followed by the loop
    over [m]. *)
Lemma suchoi_loop_add cs input n m i state :
  suchoi_loop cs input (n + m) i state =
  (s ← suchoi_loop cs input n i state;
   suchoi_loop cs input m (i + Z.of_nat n) s).
Proof.
  revert i state. induction n as [|n IH]; intros i state.
  - cbn [Nat.add suchoi_loop mbind option_bind]. f_equal. lia.
  - cbn [Nat.add suchoi_loop].
    destruct (suchoi_body cs input i state) as [s|]; [|done].
    cbn [mbind option_bind]. rewrite IH.
    replace (i + 1 + Z.of_nat n) with (i + Z.of_nat (S n)) by lia. done.
Qed.

(** After a prefix, the loop depends on the length of the prefix only. *)
Lemma suchoi_loop_suffix cs a b t m j state :
  length a = length b ->
  suchoi_loop cs (a ++ t) m (Z.of_nat (length a + j)) state =
  suchoi_loop cs (b ++ t) m (Z.of_nat (length b + j)) state.
Proof.
  intros Hab. revert j state. induction m as [|m IH]; intros j state; [done|].
  cbn [suchoi_loop]. rewrite <- Hab.
  rewrite (suchoi_body_lookup cs (a ++ t) (b ++ t)).
  2:{ rewrite Nat2Z.id. rewrite !lookup_app_r by lia. f_equal. lia. }
  destruct (suchoi_body cs (b ++ t) _ state) as [s|]; [|done].
  cbn [mbind option_bind].
  replace (Z.of_nat (length a + j) + 1) with (Z.of_nat (length a + S j)) by lia.
  rewrite IH. by rewrite <- Hab.
Qed.

Lemma char_value_low cs b : octet b < 128 -> char_value cs b = octet b.
Proof.
  intros Hb. unfold char_value, octet in *. destruct cs; [|done].
  destruct (Z.leb_spec 128 (Z.of_N (Byte.to_N b))); [lia | done].
Qed.

Lemma suchoi_loop_low_octets input n i state :
  Forall (fun b => octet b < 128) input ->
  suchoi_loop SignedChar input n i state =
  suchoi_loop UnsignedChar input n i state.
Proof.
  intros Hlow. revert i state. induction n as [|n IH]; intros i state; [done|].
  cbn [suchoi_loop].
  assert (suchoi_body SignedChar input i state
          = suchoi_body UnsignedChar input i state) as ->.
  { unfold suchoi_body, suchoi_fold.
    destruct (input !! Z.to_nat i) as [b|] eqn:Hb; [|done].
    cbn [mbind option_bind].
    assert (octet b < 128) as Hlt
      by exact (Forall_lookup_1 (fun b => octet b < 128) input _ b Hlow Hb).
    by rewrite !char_value_low by exact Hlt. }
  destruct (suchoi_body UnsignedChar input i state); [|done].
  cbn [mbind option_bind]. apply IH.
Qed.

End SuchoiLoop.

(** X13.  [suchoi] reads every octet below [input_size]: when the buffer
    holds fewer than [input_size] octets, a read falls outside it and the
    call has no defined result. *)
Theorem suchoi_past_end_undefined (cs : char_signedness) (input : list byte)
    (input_size : Z) :
  Z.of_nat (length input) < input_size -> suchoi cs input input_size = None.
Proof.
  intros Hlen. unfold suchoi.
  apply (suchoi_loop_past_end cs input (Z.to_nat input_size) 0 0). lia.
Qed.

Lemma suchoi_past_end_undefined_witness :
  suchoi UnsignedChar [x61; x62] 3 = None.
Proof. apply (suchoi_past_end_undefined UnsignedChar [x61; x62] 3). simpl. lia. Defined.

(** X14.  [suchoi] reads no octet at or after index [input_size]: the
    digest of the first [input_size] octets does not depend on what
    follows them in the buffer. *)
Theorem suchoi_ignores_tail (cs : char_signedness) (input extra : list byte) :
  suchoi cs (input ++ extra) (Z.of_nat (length input))
  = suchoi cs input (Z.of_nat (length input)).
Proof.
  unfold suchoi. rewrite Nat2Z.id.
  apply (suchoi_loop_prefix cs input extra (length input) 0 0). lia.
Qed.

(** X15.  Every defined result of [suchoi] is a 32-bit word. *)
Theorem suchoi_result_range (cs : char_signedness) (input : list byte)
    (input_size r : Z) :
  suchoi cs input input_size = Some r -> is_u32 r.
Proof.
  unfold suchoi. apply suchoi_loop_range. unfold is_u32. lia.
Qed.

Lemma suchoi_result_range_witness : is_u32 0x85A12475.
Proof.
  apply (suchoi_result_range SignedChar
           [x68; x61; x6c; x6c; x6f; x20; x77; x65; x6c; x74] 10).
  reflexivity.
Defined.

(** X16.  On octets below 0x80 the signedness of [char] plays no part:
    [suchoi] gives the same result, defined or not, on both kinds of
    target. *)
Theorem suchoi_low_octets_signedness (input : list byte) (input_size : Z) :
  Forall (fun b => Spec.octet b < 128) input ->
  suchoi SignedChar input input_size = suchoi UnsignedChar input input_size.
Proof. intros Hlow. unfold suchoi. by apply suchoi_loop_low_octets. Qed.

Lemma suchoi_low_octets_signedness_witness :
  suchoi SignedChar [x68; x61; x6c; x6c; x6f] 5
  = suchoi UnsignedChar [x68; x61; x6c; x6c; x6f] 5.
Proof.
  apply (suchoi_low_octets_signedness [x68; x61; x6c; x6c; x6f] 5).
  repeat constructor.
Defined.

(** X17.  For inputs of fewer than 16 octets, [suchoi] is defined exactly
    when every octet is in the range of [char]: always where [char] is
    unsigned, and for octets below 0x80 where it is signed. *)
Theorem suchoi_short_defined_iff (cs : char_signedness) (input : list byte) :
  (length input < 16)%nat ->
  (is_Some (suchoi cs input (Z.of_nat (length input)))
   <-> Forall (fun b => char_in_range cs b = true) input).
Proof.
  intros Hlen. rewrite suchoi_short by assumption.
  destruct (forallb (char_in_range cs) input) eqn:Hall.
  - split; [intros _ | by eexists].
    apply Forall_forall. intros b Hb. rewrite forallb_forall in Hall.
    apply Hall. by apply list_elem_of_In.
  - split; [by intros [? [=]] | intros HF].
    assert (forallb (char_in_range cs) input = true); [|congruence].
    apply forallb_forall. intros b Hb. rewrite Forall_forall in HF.
    apply HF. by apply list_elem_of_In.
Qed.

Lemma suchoi_short_defined_iff_witness :
  is_Some (suchoi SignedChar [x68; xe4] (Z.of_nat (length [x68; xe4])))
  <-> Forall (fun b => char_in_range SignedChar b = true) [x68; xe4].
Proof. apply (suchoi_short_defined_iff SignedChar [x68; xe4]). simpl. lia. Defined.


(** X19.  A collision extends: two inputs of the same length with the same
    digest still have the same digest after any common suffix is appended
    to both. *)
Theorem suchoi_collision_extends (cs : char_signedness) (a b t : list byte)
    (r : Z) :
  length a = length b ->
  suchoi cs a (Z.of_nat (length a)) = Some r ->
  suchoi cs b (Z.of_nat (length b)) = Some r ->
  suchoi cs (a ++ t) (Z.of_nat (length (a ++ t)))
  = suchoi cs (b ++ t) (Z.of_nat (length (b ++ t))).
Proof.
  unfold suchoi. rewrite !Nat2Z.id, !length_app. intros Hab Ha Hb.
  rewrite !suchoi_loop_add.
  pose proof (suchoi_loop_prefix cs a t (length a) 0 0 ltac:(lia)) as Hpa.
  pose proof (suchoi_loop_prefix cs b t (length b) 0 0 ltac:(lia)) as Hpb.
  change (Z.of_nat 0) with 0 in Hpa, Hpb.
  rewrite Hpa, Hpb, Ha, Hb. cbn [mbind option_bind].
  pose proof (suchoi_loop_suffix cs a b t (length t) 0 r Hab) as Hsuffix.
  rewrite !Nat.add_0_r in Hsuffix. rewrite !Z.add_0_l. exact Hsuffix.
Qed.

Lemma suchoi_collision_extends_witness :
  suchoi UnsignedChar
    ([x40; x26; x70; x52; x4f; x76; x28; x24; x3f; x7e; x54; x63; x2e; x2e;
      x4b; x44] ++ [x21])
    (Z.of_nat 17)
  = suchoi UnsignedChar
    ([x64; x7b; x6a; x7e; x31; x55; x6d; x72; x29; x43; x7b; x6d; x57; x48;
      x48; x33] ++ [x21])
    (Z.of_nat 17).
Proof.
  apply (suchoi_collision_extends UnsignedChar
    [x40; x26; x70; x52; x4f; x76; x28; x24; x3f; x7e; x54; x63; x2e; x2e;
     x4b; x44]
    [x64; x7b; x6a; x7e; x31; x55; x6d; x72; x29; x43; x7b; x6d; x57; x48;
     x48; x33]
    [x21] 0xEE9D1D9E); reflexivity.
Defined.

(** ** Collisions of short inputs *)

Section ShortInputs2.
Import Spec.

Lemma all_octets_lookup b : all_octets !! N.to_nat (Byte.to_N b) = Some b.
Proof. destruct b; vm_compute; reflexivity. Qed.

Lemma all_octets_complete b : b ∈ all_octets.
Proof. eapply list_elem_of_lookup_2. apply all_octets_lookup. Qed.

Lemma short_inputs_complete (l : list byte) :
  (length l <= 2)%nat -> l ∈ short_inputs.
Proof.
  intros Hl. unfold short_inputs.
  destruct l as [|b1 [|b2 [|b3 l]]]; cbn in Hl; try lia.
  - apply list_elem_of_here.
  - apply list_elem_of_further, elem_of_app. left.
    apply list_elem_of_In, (in_map (fun b => [b])), list_elem_of_In,
      all_octets_complete.
  - apply list_elem_of_further, elem_of_app. right.
    apply list_elem_of_In, in_flat_map. exists b1. split.
    + apply list_elem_of_In, all_octets_complete.
    + apply (in_map (fun b2 => [b1; b2])), list_elem_of_In, all_octets_complete.
Qed.

Lemma strictly_increasing_lower x l :
  strictly_increasing (x :: l) = true -> Forall (fun y => x < y) l.
Proof.
  revert x. induction l as [|y l IH]; intros x H; [constructor|].
  cbn [strictly_increasing] in H. apply andb_true_iff in H as [Hxy Hrest].
  apply Z.ltb_lt in Hxy. constructor; [done|].
  eapply Forall_impl; [apply (IH y Hrest)|]. intros z Hz. cbn in Hz. lia.
Qed.

Lemma strictly_increasing_NoDup l : strictly_increasing l = true -> NoDup l.
Proof.
  induction l as [|x l IH]; intros H; [constructor|].
  constructor.
  - intros Hin. pose proof (strictly_increasing_lower x l H) as Hlow.
    rewrite Forall_forall in Hlow. specialize (Hlow x Hin). lia.
  - apply IH. destruct l; [done|].
    cbn [strictly_increasing] in H. by apply andb_true_iff in H as [_ ?].
Qed.

Lemma NoDup_map_inj {A} (f : A -> Z) (l : list A) x y :
  NoDup (map f l) -> x ∈ l -> y ∈ l -> f x = f y -> x = y.
Proof.
  induction l as [|z l IH]; intros Hnd Hx Hy Hf.
  - by apply elem_of_nil in Hx.
  - cbn [map] in Hnd. apply NoDup_cons in Hnd as [Hz Hnd].
    apply elem_of_cons in Hx as [->|Hx]; apply elem_of_cons in Hy as [->|Hy].
    + done.
    + exfalso. apply Hz. rewrite Hf. apply list_elem_of_In, in_map.
      by apply list_elem_of_In.
    + exfalso. apply Hz. rewrite <- Hf. apply list_elem_of_In, in_map.
      by apply list_elem_of_In.
    + by apply IH.
Qed.

Lemma rotl32_lxor a b c :
  is_u32 a -> is_u32 b -> 0 <= c < 32 ->
  rotl32 (Z.lxor a b) c = Z.lxor (rotl32 a c) (rotl32 b c).
Proof.
  intros Ha Hb Hc. apply u32_eq_bits.
  - apply rotl32_range; [by apply is_u32_lxor | done].
  - apply is_u32_lxor; by apply rotl32_range.
  - intros i Hi. rewrite Z.lxor_spec.
    rewrite !rotl32_bits by (assumption || by apply is_u32_lxor).
    apply Z.lxor_spec.
Qed.

Lemma sbox_range n : 0 <= n < 16 -> is_u32 (sbox n).
Proof. intros Hn. by destruct (c_pi_in_bounds n Hn). Qed.

(** The fold of an octet is XOR-linear in the state. *)
Lemma fold_octet_linear s b :
  is_u32 s -> fold_octet s b = Z.lxor (rotl32 s 30) (fold_octet 0 b).
Proof.
  intros Hs. unfold fold_octet.
  pose proof (sbox_range _ (upper_nibble_range b)) as Hu.
  pose proof (sbox_range _ (lower_nibble_range b)) as Hl.
  set (U := sbox (upper_nibble b)) in *. set (L := sbox (lower_nibble b)) in *.
  assert (H0 : is_u32 0) by (unfold is_u32; lia).
  rewrite Z.lxor_0_l.
  rewrite !rotl32_lxor
    by (try assumption; try lia;
        try (apply rotl32_range; [|lia]); try (apply is_u32_lxor); assumption).
  rewrite !rotl32_rotl32 by (assumption || lia).
  change ((31 + 31) mod 32) with 30.
  by rewrite !Z.lxor_assoc.
Qed.

Lemma digest_one b : digest [b] = fold_octet 0 b.
Proof. reflexivity. Qed.

Lemma digest_two b1 b2 :
  digest [b1; b2] = Z.lxor (rotl32 (fold_octet 0 b1) 30) (fold_octet 0 b2).
Proof.
  change (digest [b1; b2]) with (fold_octet (fold_octet 0 b1) b2).
  apply fold_octet_linear. apply fold_octet_range. unfold is_u32. lia.
Qed.

Lemma flat_map_map {A B C} (g : B -> list C) (h : A -> B) (l : list A) :
  flat_map g (map h l) = flat_map (fun x => g (h x)) l.
Proof. induction l as [|x l IH]; [done|]. cbn. by rewrite IH. Qed.

Lemma map_flat_map {A B C} (f : B -> C) (g : A -> list B) (l : list A) :
  map f (flat_map g l) = flat_map (fun x => map f (g x)) l.
Proof. induction l as [|x l IH]; [done|]. cbn. by rewrite map_app, IH. Qed.

Lemma short_digests_fast : map digest short_inputs = two_octet_digests.
Proof.
  unfold short_inputs, two_octet_digests. cbv zeta.
  generalize all_octets. intros octets.
  rewrite map_cons, map_app, map_map. change (digest []) with 0.
  apply (f_equal (cons 0)). apply (f_equal2 (@app Z)).
  - apply map_ext. intros b. apply digest_one.
  - rewrite map_flat_map. rewrite (map_map (fold_octet 0)).
    rewrite (flat_map_map _ (fun b => rotl32 (fold_octet 0 b) 30)).
    apply flat_map_ext. intros b1.
    rewrite !map_map. apply map_ext. intros b2. apply digest_two.
Qed.

Lemma two_octet_digests_sorted :
  strictly_increasing (ZSort.sort two_octet_digests) = true.
Proof. vm_compute. reflexivity. Qed.

Lemma short_digests_NoDup : NoDup (map digest short_inputs).
Proof.
  rewrite short_digests_fast.
  pose proof (strictly_increasing_NoDup _ two_octet_digests_sorted) as Hnd.
  apply NoDup_ListNoDup. apply NoDup_ListNoDup in Hnd.
  eapply Permutation.Permutation_NoDup; [|exact Hnd].
  symmetry. apply ZSort.Permuted_sort.
Qed.

End ShortInputs2.

(** X20.  Inputs of at most two octets never collide: two such inputs with
    the same defined digest are the same octet sequence. *)
Theorem suchoi_short_inputs_collision_free (cs : char_signedness)
    (a b : list byte) (r : Z) :
  (length a <= 2)%nat -> (length b <= 2)%nat ->
  suchoi cs a (Z.of_nat (length a)) = Some r ->
  suchoi cs b (Z.of_nat (length b)) = Some r ->
  a = b.
Proof.
  intros Ha Hb Hda Hdb.
  apply suchoi_sound in Hda. apply suchoi_sound in Hdb.
  apply (NoDup_map_inj Spec.digest short_inputs a b).
  - apply short_digests_NoDup.
  - by apply short_inputs_complete.
  - by apply short_inputs_complete.
  - congruence.
Qed.

Lemma suchoi_short_inputs_collision_free_witness : [x61; x62] = [x61; x62].
Proof.
  apply (suchoi_short_inputs_collision_free UnsignedChar [x61; x62] [x61; x62]
           0x20ED2091); try (simpl; lia); vm_compute; reflexivity.
Defined.

Section ShortAppend.
Import Spec.

Lemma digest_from_app i s l l' :
  digest_from i s (l ++ l') =
  digest_from (i + Z.of_nat (length l)) (digest_from i s l) l'.
Proof.
  revert i s. induction l as [|b l IH]; intros i s.
  - rewrite digest_from_nil. cbn [app length]. f_equal. lia.
  - cbn [app length]. rewrite !digest_from_cons, IH. f_equal. lia.
Qed.

Lemma digest_from_range i s l : is_u32 s -> is_u32 (digest_from i s l).
Proof.
  revert i s. induction l as [|b l IH]; intros i s Hs.
  - by rewrite digest_from_nil.
  - rewrite digest_from_cons. apply IH. by apply digest_step_range.
Qed.

Lemma digest_short_append l b :
  (length l < 15)%nat ->
  digest (l ++ [b]) = Z.lxor (rotl32 (digest l) 30) (digest [b]).
Proof.
  intros Hlen. unfold digest at 1. rewrite digest_from_app.
  rewrite digest_from_cons, digest_from_nil, digest_step_fold.
  rewrite no_remix_before_16 by lia. rewrite digest_one.
  apply fold_octet_linear. apply digest_from_range. unfold is_u32. lia.
Qed.

End ShortAppend.

(** X21.  Below 16 octets the digest is XOR-linear in its octets:
    appending an octet to an input of fewer than 15 octets rotates the
    digest left by 30 bits and XORs the digest of the one-octet input. *)
Theorem suchoi_short_append (cs : char_signedness) (l : list byte) (b : byte)
    (r rb : Z) :
  (length l < 15)%nat ->
  suchoi cs l (Z.of_nat (length l)) = Some r ->
  suchoi cs [b] 1 = Some rb ->
  suchoi cs (l ++ [b]) (Z.of_nat (length l) + 1)
  = (r' ← rotate r 30; Some (Z.lxor r' rb)).
Proof.
  intros Hlen Hr Hrb.
  rewrite suchoi_short in Hr by lia.
  change 1 with (Z.of_nat (length [b])) in Hrb.
  rewrite suchoi_short in Hrb by (simpl; lia).
  destruct (forallb (char_in_range cs) l) eqn:Hl; [|discriminate].
  destruct (forallb (char_in_range cs) [b]) eqn:Hb; [|discriminate].
  injection Hr as <-. injection Hrb as <-.
  replace (Z.of_nat (length l) + 1) with (Z.of_nat (length (l ++ [b])))
    by (rewrite length_app; simpl; lia).
  rewrite suchoi_short by (rewrite length_app; simpl; lia).
  rewrite forallb_app, Hl, Hb. cbn [andb].
  rewrite rotate_in_range by lia. cbn [mbind option_bind]. f_equal.
  rewrite rotate_value_rotl32
    by (lia || (apply digest_from_range; unfold is_u32; lia)).
  by apply digest_short_append.
Qed.

Lemma suchoi_short_append_witness :
  suchoi UnsignedChar ([x61] ++ [x62]) (Z.of_nat (length [x61]) + 1)
  = (r' ← rotate 0x626A6E0A 30; Some (Z.lxor r' 0xB877BB13)).
Proof.
  apply (suchoi_short_append UnsignedChar [x61] x62 0x626A6E0A 0xB877BB13);
    [simpl; lia | vm_compute; reflexivity | vm_compute; reflexivity].
Defined.

(** ** The codecs, continued *)

Section Codecs.

Lemma store_short buf i v :
  (length buf <= Z.to_nat i)%nat -> store buf i v = None.
Proof.
  intros H. unfold store.
  destruct (Nat.ltb_spec (Z.to_nat i) (length buf)); [lia | done].
Qed.

Lemma int2octets_short w buf : (length buf < 4)%nat -> int2octets w buf = None.
Proof.
  intros Hlen. destruct buf as [|b0 [|b1 [|b2 [|b3 rest]]]];
    cbn in Hlen; try lia; reflexivity.
Qed.

Lemma octets2int_short buf : (length buf < 4)%nat -> octets2int buf = None.
Proof.
  intros Hlen. destruct buf as [|b0 [|b1 [|b2 [|b3 rest]]]];
    cbn in Hlen; try lia; reflexivity.
Qed.

(** The value assembled by [octets2int] from four octets. *)
Lemma octets2int_value b0 b1 b2 b3 :
  0 <= b0 < 256 -> 0 <= b1 < 256 -> 0 <= b2 < 256 -> 0 <= b3 < 256 ->
  Z.lor (lsl32 (Z.lor (lsl32 (Z.lor (lsl32 (Z.lor 0 b3) 8) b2) 8) b1) 8) b0
  = b0 + 256 * b1 + 65536 * b2 + 16777216 * b3.
Proof.
  intros H0 H1 H2 H3. rewrite Z.lor_0_l.
  rewrite (lsl32_lor_byte b3 b2) by lia.
  rewrite (lsl32_lor_byte (b3 * 256 + b2) b1) by lia.
  rewrite (lsl32_lor_byte ((b3 * 256 + b2) * 256 + b1) b0) by lia.
  lia.
Qed.

(** The octets written by [int2octets]. *)
Lemma int2octets_digits w :
  0 <= w ->
  u8 (Z.land w 0xFF) = w mod 256
  /\ u8 (Z.land (lsr32 w 8) 0xFF) = (w / 256) mod 256
  /\ u8 (Z.land (lsr32 (lsr32 w 8) 8) 0xFF) = (w / 65536) mod 256
  /\ u8 (Z.land (lsr32 (lsr32 (lsr32 w 8) 8) 8) 0xFF) = (w / 16777216) mod 256.
Proof.
  intros Hw. rewrite !lsr32_8.
  assert (0 <= w / 256) by (apply Z.div_pos; lia).
  assert (0 <= w / 256 / 256) by (apply Z.div_pos; lia).
  assert (0 <= w / 256 / 256 / 256) by (apply Z.div_pos; lia).
  rewrite !low_byte by lia.
  rewrite !Z.div_div by lia.
  repeat split.
Qed.

End Codecs.

(** X22.  Unpacking then packing is the identity on octets: for four
    octets [b0 .. b3], [octets2int] gives a 32-bit word, and [int2octets] of
    that word writes [b0 .. b3] back, leaving the rest of the buffer as it
    was. *)
Theorem int2octets_octets2int (b0 b1 b2 b3 : Z) (input_rest buffer : list Z) :
  0 <= b0 < 256 -> 0 <= b1 < 256 -> 0 <= b2 < 256 -> 0 <= b3 < 256 ->
  (4 <= length buffer)%nat ->
  exists w, octets2int (b0 :: b1 :: b2 :: b3 :: input_rest) = Some w
    /\ is_u32 w
    /\ int2octets w buffer = Some (b0 :: b1 :: b2 :: b3 :: drop 4 buffer).
Proof.
  intros H0 H1 H2 H3 Hlen.
  exists (b0 + 256 * b1 + 65536 * b2 + 16777216 * b3).
  rewrite octets2int_buffer, octets2int_value by assumption.
  split; [done|]. split; [unfold is_u32; lia|].
  destruct buffer as [|c0 [|c1 [|c2 [|c3 rest]]]]; cbn in Hlen; try lia.
  rewrite int2octets_buffer. cbn [drop].
  set (w := b0 + 256 * b1 + 65536 * b2 + 16777216 * b3).
  destruct (int2octets_digits w ltac:(unfold w; lia)) as (-> & -> & -> & ->).
  unfold w. clear w.
  do 2 f_equal; [|f_equal; [|f_equal; [|f_equal]]];
    Z.div_mod_to_equations; lia.
Qed.

Lemma int2octets_octets2int_witness :
  exists w, octets2int [0x23; 0x01; 0xCD; 0xAB; 0x99] = Some w
    /\ is_u32 w
    /\ int2octets w [1; 2; 3; 4; 5; 6]
       = Some (0x23 :: 0x01 :: 0xCD :: 0xAB :: drop 4 [1; 2; 3; 4; 5; 6]).
Proof.
  apply (int2octets_octets2int 0x23 0x01 0xCD 0xAB [0x99] [1; 2; 3; 4; 5; 6]);
    simpl; lia.
Defined.

(** X23.  [int2octets] needs a buffer of at least 4 octets (a shorter one
    is written out of bounds).  On such a buffer it writes the four base-256
    digits of the word, least significant first, each below 256, and leaves
    every octet from index 4 on unchanged. *)
Theorem int2octets_layout (w : Z) (buffer : list Z) :
  0 <= w ->
  (is_Some (int2octets w buffer) <-> (4 <= length buffer)%nat)
  /\ ((4 <= length buffer)%nat ->
      int2octets w buffer =
      Some (w mod 256 :: (w / 256) mod 256 :: (w / 65536) mod 256
            :: (w / 16777216) mod 256 :: drop 4 buffer)).
Proof.
  intros Hw.
  assert (Hlayout : (4 <= length buffer)%nat ->
      int2octets w buffer =
      Some (w mod 256 :: (w / 256) mod 256 :: (w / 65536) mod 256
            :: (w / 16777216) mod 256 :: drop 4 buffer)).
  { intros Hlen.
    destruct buffer as [|c0 [|c1 [|c2 [|c3 rest]]]]; cbn in Hlen; try lia.
    rewrite int2octets_buffer. cbn [drop].
    by destruct (int2octets_digits w Hw) as (-> & -> & -> & ->). }
  split; [|exact Hlayout]. split.
  - intros [out Hout].
    destruct (Nat.le_gt_cases 4 (length buffer)) as [|Hshort]; [done|].
    rewrite int2octets_short in Hout by lia. discriminate.
  - intros Hlen. rewrite Hlayout by assumption. by eexists.
Qed.

Lemma int2octets_layout_witness :
  (is_Some (int2octets 0xABCD0123 [7; 7; 7; 7; 7]) <-> (4 <= length [7; 7; 7; 7; 7])%nat)
  /\ ((4 <= length [7; 7; 7; 7; 7])%nat ->
      int2octets 0xABCD0123 [7; 7; 7; 7; 7] =
      Some (0xABCD0123 mod 256 :: (0xABCD0123 / 256) mod 256
            :: (0xABCD0123 / 65536) mod 256
            :: (0xABCD0123 / 16777216) mod 256 :: drop 4 [7; 7; 7; 7; 7])).
Proof. apply (int2octets_layout 0xABCD0123 [7; 7; 7; 7; 7]). lia. Defined.

(** X24.  [octets2int] needs at least 4 octets (fewer are read out of
    bounds); it reads the first four as a little-endian number,
    [b0 + 256 b1 + 65536 b2 + 16777216 b3], and ignores the others. *)
Theorem octets2int_little_endian (b0 b1 b2 b3 : Z) (rest : list Z) :
  0 <= b0 < 256 -> 0 <= b1 < 256 -> 0 <= b2 < 256 -> 0 <= b3 < 256 ->
  octets2int (b0 :: b1 :: b2 :: b3 :: rest)
    = Some (b0 + 256 * b1 + 65536 * b2 + 16777216 * b3)
  /\ forall short : list Z, (length short < 4)%nat -> octets2int short = None.
Proof.
  intros H0 H1 H2 H3. split; [|apply octets2int_short].
  by rewrite octets2int_buffer, octets2int_value.
Qed.

Lemma octets2int_little_endian_witness :
  octets2int (0x23 :: 0x01 :: 0xCD :: 0xAB :: [0xFF])
    = Some (0x23 + 256 * 0x01 + 65536 * 0xCD + 16777216 * 0xAB)
  /\ forall short : list Z, (length short < 4)%nat -> octets2int short = None.
Proof. apply (octets2int_little_endian 0x23 0x01 0xCD 0xAB [0xFF]); lia. Defined.

(** ** The bit swap *)

Section SwapBits.

Lemma int_shl_one_in_range p :
  0 <= p <= 30 -> int_shl_one (u8 p) = Some (2 ^ p).
Proof.
  intros Hp. rewrite u8_small by lia. unfold int_shl_one.
  destruct (Z.leb_spec 0 p); [|lia]. destruct (Z.ltb_spec p 31); [|lia].
  cbn [andb]. f_equal. rewrite Z.shiftl_mul_pow2 by lia. lia.
Qed.

Lemma int_shl_one_defined p :
  is_Some (int_shl_one (u8 p)) <-> p mod 256 <= 30.
Proof.
  change (u8 p) with (p mod 256).
  pose proof (Z.mod_pos_bound p 256 ltac:(lia)) as Hp. unfold int_shl_one.
  destruct (Z.leb_spec 0 (p mod 256)); [|lia].
  destruct (Z.ltb_spec (p mod 256) 31); cbn [andb]; split; intros H';
    try lia; try (by eexists). by destruct H' as [? [=]].
Qed.

Lemma pow2_u32 p : 0 <= p <= 30 -> u32 (2 ^ p) = 2 ^ p.
Proof.
  intros Hp. unfold u32. apply Z.mod_small. split; [lia|].
  apply Z.pow_lt_mono_r; lia.
Qed.

(** The complement of a stencil, bit by bit. *)
Lemma lnot_pow2_bits p i :
  0 <= p <= 30 -> 0 <= i ->
  Z.testbit (u32 (Z.lnot (2 ^ p))) i = (i <? 32) && negb (i =? p).
Proof.
  intros Hp Hi. unfold u32. rewrite Z.testbit_mod_pow2 by lia.
  destruct (Z.ltb_spec i 32); [|done]. cbn [andb].
  rewrite Z.lnot_spec by lia. f_equal. rewrite Z.pow2_bits_eqb by lia.
  apply Z.eqb_sym.
Qed.

(** The test [if (v)] of a masked bit. *)
Lemma masked_bit_test x p :
  0 <= p -> negb (Z.land x (2 ^ p) =? 0) = Z.testbit x p.
Proof.
  intros Hp. destruct (Z.testbit x p) eqn:Hbit.
  - apply negb_true_iff, Z.eqb_neq. intros H0.
    assert (Z.testbit (Z.land x (2 ^ p)) p = true)
      by (rewrite Z.land_spec, Hbit, Z.pow2_bits_true by lia; done).
    rewrite H0, Z.bits_0 in H. discriminate.
  - apply negb_false_iff, Z.eqb_eq. apply Z.bits_inj'. intros i Hi.
    rewrite Z.land_spec, Z.bits_0, Z.pow2_bits_eqb by lia.
    destruct (Z.eqb_spec p i) as [<-|]; [by rewrite Hbit | apply andb_false_r].
Qed.

Lemma is_u32_land a b : is_u32 a -> 0 <= b -> is_u32 (Z.land a b).
Proof.
  intros Ha Hb. apply is_u32_of_bits.
  - apply Z.land_nonneg. right. exact Hb.
  - intros i Hi. by rewrite Z.land_spec, (is_u32_high_bits a) by assumption.
Qed.

Lemma is_u32_pow2 p : 0 <= p <= 30 -> is_u32 (2 ^ p).
Proof.
  intros Hp. unfold is_u32. split; [lia|]. apply Z.pow_lt_mono_r; lia.
Qed.

(** The word with the two positions cleared. *)
Lemma cleared_bits w p q i :
  is_u32 w -> 0 <= p <= 30 -> 0 <= q <= 30 -> 0 <= i ->
  Z.testbit (Z.land (Z.land w (u32 (Z.lnot (2 ^ p)))) (u32 (Z.lnot (2 ^ q)))) i
  = Z.testbit w i && negb (i =? p) && negb (i =? q).
Proof.
  intros Hw Hp Hq Hi. rewrite !Z.land_spec, !lnot_pow2_bits by assumption.
  destruct (Z.ltb_spec i 32); cbn [andb]; [done|].
  by rewrite (is_u32_high_bits w) by assumption.
Qed.

Lemma set_bit_if (c : bool) x p i :
  0 <= p -> 0 <= i ->
  Z.testbit (if c then Z.lor x (2 ^ p) else x) i
  = Z.testbit x i || (c && (i =? p)).
Proof.
  intros Hp Hi. destruct c; cbn [andb]; [|by rewrite orb_false_r].
  rewrite Z.lor_spec, Z.pow2_bits_eqb by lia. by rewrite (Z.eqb_sym p i).
Qed.

(** The result of [swapBits], bit by bit. *)
Lemma swapBits_value w p q :
  is_u32 w -> 0 <= p <= 30 -> 0 <= q <= 30 ->
  exists r, swapBits w p q = Some r /\ is_u32 r /\
    forall i, 0 <= i ->
      Z.testbit r i =
      Z.testbit w (if i =? p then q else if i =? q then p else i).
Proof.
  intros Hw Hp Hq. unfold swapBits.
  rewrite !int_shl_one_in_range by assumption. cbn [mbind option_bind].
  rewrite !pow2_u32 by assumption. rewrite !masked_bit_test by lia.
  eexists. split; [reflexivity|].
  set (cleared := Z.land (Z.land w (u32 (Z.lnot (2 ^ p)))) (u32 (Z.lnot (2 ^ q)))).
  assert (Hc : is_u32 cleared)
    by (apply is_u32_land; [apply is_u32_land; [done|] |]; apply u32_range).
  split.
  - pose proof (is_u32_pow2 p Hp). pose proof (is_u32_pow2 q Hq).
    destruct (Z.testbit w p), (Z.testbit w q);
      repeat (apply is_u32_lor; try assumption); assumption.
  - intros i Hi. rewrite !set_bit_if by lia.
    unfold cleared. rewrite cleared_bits by assumption.
    destruct (Z.eqb_spec i p) as [Hip|Hip]; destruct (Z.eqb_spec i q) as [Hiq|Hiq];
      cbn [negb andb orb];
      rewrite ?andb_false_r, ?andb_true_r, ?orb_false_r, ?orb_false_l;
      try reflexivity.
    assert (p = q) as -> by lia. apply orb_diag.
Qed.

Lemma swapBits_defined w p q :
  is_Some (swapBits w p q) <-> p mod 256 <= 30 /\ q mod 256 <= 30.
Proof.
  rewrite <- !int_shl_one_defined. unfold swapBits.
  destruct (int_shl_one (u8 p)) as [s1|]; cbn [mbind option_bind].
  - destruct (int_shl_one (u8 q)) as [s2|]; cbn [mbind option_bind].
    + split; [intros _; split; by eexists | intros _; by eexists].
    + split; [by intros [? [=]] | by intros [_ [? [=]]]].
  - split; [by intros [? [=]] | by intros [[? [=]] _]].
Qed.

End SwapBits.

(** X25.  For positions 0..30, [swapBits(w, p, q)] is a 32-bit word whose
    bit [p] is bit [q] of [w], whose bit [q] is bit [p] of [w], and whose
    other bits are those of [w]. *)
Theorem swapBits_swaps_bits (w p q : Z) :
  is_u32 w -> 0 <= p <= 30 -> 0 <= q <= 30 ->
  exists r, swapBits w p q = Some r /\ is_u32 r
    /\ Z.testbit r p = Z.testbit w q
    /\ Z.testbit r q = Z.testbit w p
    /\ forall i, 0 <= i -> i <> p -> i <> q -> Z.testbit r i = Z.testbit w i.
Proof.
  intros Hw Hp Hq.
  destruct (swapBits_value w p q Hw Hp Hq) as (r & Hr & Hrange & Hbits).
  exists r. split; [assumption|]. split; [assumption|]. split; [|split].
  - rewrite Hbits by lia. by rewrite Z.eqb_refl.
  - rewrite Hbits by lia. rewrite Z.eqb_refl.
    by destruct (Z.eqb_spec q p) as [->|].
  - intros i Hi Hip Hiq. rewrite Hbits by lia.
    destruct (Z.eqb_spec i p); [done|]. by destruct (Z.eqb_spec i q).
Qed.

Lemma swapBits_swaps_bits_witness :
  exists r, swapBits 0x40000001 30 1 = Some r /\ is_u32 r
    /\ Z.testbit r 30 = Z.testbit 0x40000001 1
    /\ Z.testbit r 1 = Z.testbit 0x40000001 30
    /\ forall i, 0 <= i -> i <> 30 -> i <> 1 ->
         Z.testbit r i = Z.testbit 0x40000001 i.
Proof. apply (swapBits_swaps_bits 0x40000001 30 1); unfold is_u32; lia. Defined.

(** X26.  [swapBits] is an involution: for positions 0..30, swapping the
    same two positions twice gives the word back. *)
Theorem swapBits_involutive (w p q : Z) :
  is_u32 w -> 0 <= p <= 30 -> 0 <= q <= 30 ->
  (r ← swapBits w p q; swapBits r p q) = Some w.
Proof.
  intros Hw Hp Hq.
  destruct (swapBits_value w p q Hw Hp Hq) as (r & Hr & Hrange & Hbits).
  destruct (swapBits_value r p q Hrange Hp Hq) as (r2 & Hr2 & Hrange2 & Hbits2).
  rewrite Hr. cbn [mbind option_bind]. rewrite Hr2. f_equal.
  apply u32_eq_bits; [assumption..|]. intros i Hi.
  rewrite Hbits2 by lia.
  destruct (Z.eqb_spec i p) as [->|Hip].
  - rewrite Hbits by lia. destruct (Z.eqb_spec q p) as [->|]; [done|].
    by rewrite Z.eqb_refl.
  - destruct (Z.eqb_spec i q) as [->|Hiq].
    + rewrite Hbits by lia. by rewrite Z.eqb_refl.
    + rewrite Hbits by lia. destruct (Z.eqb_spec i p); [done|].
      by destruct (Z.eqb_spec i q).
Qed.

Lemma swapBits_involutive_witness :
  (r ← swapBits 0x12345678 3 28; swapBits r 3 28) = Some 0x12345678.
Proof. apply (swapBits_involutive 0x12345678 3 28); unfold is_u32; lia. Defined.

(** X27.  [swapBits] has a defined result exactly when both positions,
    taken as [uint8_t], are at most 30: the stencil [1 << pos] is computed
    in [int], where [1 << 31] is not representable and counts from 32 on
    are out of range, so bit 31 cannot be swapped. *)
Theorem swapBits_defined_iff (w p q : Z) :
  is_Some (swapBits w p q) <-> p mod 256 <= 30 /\ q mod 256 <= 30.
Proof. apply swapBits_defined. Qed.

(** X28.  [shapashnik_lp] has no defined result for any arguments: its
    loop reaches [i = 31] and calls [swapBits(input, 31, index)], whose
    stencil [1 << 31] overflows [int]. *)
Theorem shapashnik_lp_undefined (input key : Z) :
  shapashnik_lp input key = None.
Proof.
  assert (Hloop : forall n i k,
            0 <= i -> i + Z.of_nat n = 32 -> (0 < n)%nat ->
            shapashnik_lp_loop n i input k = None).
  { induction n as [|n IH]; intros i k Hi Hsum Hn; [lia|].
    cbn [shapashnik_lp_loop].
    destruct (rotate k 5) as [k'|]; [|done]. cbn [mbind option_bind].
    destruct (swapBits input i (u8 (Z.land k 31))) as [r|] eqn:Hswap; [|done].
    cbn [mbind option_bind].
    destruct n as [|n].
    - exfalso. assert (i = 31) as -> by lia.
      assert (is_Some (swapBits input 31 (u8 (Z.land k 31)))) as Hdef
        by (by eexists).
      apply swapBits_defined in Hdef. destruct Hdef as [H31 _].
      change (31 mod 256) with 31 in H31. lia.
    - rewrite u8_small by lia. apply IH; lia. }
  unfold shapashnik_lp. by rewrite (Hloop 32%nat 0 key) by lia.
Qed.

(** ** Adler-32 *)

Section Adler.
Import Spec.

Lemma octet_range b : 0 <= octet b < 256.
Proof. destruct b; vm_compute; split; congruence. Qed.

Lemma char_value_in_range cs b :
  char_in_range cs b = true -> char_value cs b = octet b.
Proof.
  destruct cs; [|done]. cbn [char_in_range]. intros H.
  apply Z.ltb_lt in H. by apply char_value_low.
Qed.

Lemma adler32_body_in_range cs data index a b c :
  data !! Z.to_nat index = Some c -> char_in_range cs c = true ->
  0 <= a < MOD_ADLER -> 0 <= b < MOD_ADLER ->
  adler32_body cs data index (a, b) =
  Some ((a + octet c) mod MOD_ADLER,
        (b + (a + octet c) mod MOD_ADLER) mod MOD_ADLER).
Proof.
  unfold MOD_ADLER. intros Hc Hin Ha Hb. unfold adler32_body. rewrite Hc.
  cbn [mbind option_bind fst snd]. rewrite char_value_in_range by assumption.
  pose proof (octet_range c) as Ho. unfold MOD_ADLER.
  pose proof (Z.mod_pos_bound (a + octet c) 65521 ltac:(lia)) as Ha'.
  unfold u32. rewrite (Z.mod_small (a + octet c) (2 ^ 32)) by lia.
  rewrite (Z.mod_small (b + _) (2 ^ 32)) by lia. reflexivity.
Qed.

Lemma adler32_loop_sums cs seen rest a b :
  Forall (fun c => char_in_range cs c = true) rest ->
  0 <= a < MOD_ADLER -> 0 <= b < MOD_ADLER ->
  adler32_loop cs (seen ++ rest) (length rest) (Z.of_nat (length seen)) (a, b)
  = Some ((a + octet_sum rest) mod MOD_ADLER,
          (b + Z.of_nat (length rest) * a + weighted_octet_sum rest)
            mod MOD_ADLER).
Proof.
  intros Hin. revert seen a b.
  induction Hin as [|c rest Hc Hrest IH]; intros seen a b Ha Hb.
  - cbn [adler32_loop length octet_sum weighted_octet_sum].
    rewrite Z.add_0_r, Z.mul_0_l, !Z.add_0_r.
    by rewrite !Z.mod_small by assumption.
  - cbn [adler32_loop length].
    rewrite (adler32_body_in_range cs _ _ a b c)
      by (try assumption; rewrite Nat2Z.id; apply list_lookup_middle; reflexivity).
    cbn [mbind option_bind].
    replace (Z.of_nat (length seen) + 1) with (Z.of_nat (length (seen ++ [c])))
      by (rewrite length_app; simpl; lia).
    replace (seen ++ c :: rest) with ((seen ++ [c]) ++ rest)
      by (by rewrite <- app_assoc).
    unfold MOD_ADLER in *.
    rewrite IH by (apply Z.mod_pos_bound; lia).
    cbn [octet_sum weighted_octet_sum length].
    set (n := Z.of_nat (length rest)).
    replace (Z.of_nat (S (length rest))) with (n + 1) by lia.
    set (A := a + octet c).
    set (q1 := A / 65521). set (q2 := (b + A mod 65521) / 65521).
    assert (Ha' : A mod 65521 = A - 65521 * q1) by (apply Z.mod_eq; lia).
    assert (Hb' : (b + A mod 65521) mod 65521 = b + A mod 65521 - 65521 * q2)
      by (apply Z.mod_eq; lia).
    f_equal. f_equal.
    + rewrite Z.add_mod_idemp_l by lia. f_equal. unfold A. lia.
    + rewrite Hb', Ha'.
      replace (b + (A - 65521 * q1) - 65521 * q2 + n * (A - 65521 * q1)
               + weighted_octet_sum rest)
        with (b + (n + 1) * a + ((n + 1) * octet c + weighted_octet_sum rest)
              + (- (n + 1) * q1 - q2) * 65521)
        by (unfold A; ring).
      apply Z.mod_add. lia.
Qed.

Lemma adler32_combine a b :
  0 <= a < MOD_ADLER -> 0 <= b < MOD_ADLER ->
  Z.lor (lsl32 b 16) a = 65536 * b + a.
Proof.
  unfold MOD_ADLER. intros Ha Hb. unfold lsl32, u32.
  rewrite (Z.mod_small (Z.shiftl b 16))
    by (rewrite Z.shiftl_mul_pow2 by lia; lia).
  rewrite lor_shiftl_low by lia. lia.
Qed.

End Adler.

(** X29.  On octets in the range of [char], [adler32] is the Adler-32
    checksum in closed form: the low half is 1 plus the sum of the octets,
    the high half is the number of octets plus the sum of the octets
    weighted by their distance to the end, both modulo 65521. *)
Theorem adler32_closed_form (cs : char_signedness) (data : list byte) :
  Forall (fun c => char_in_range cs c = true) data ->
  adler32 cs data (Z.of_nat (length data))
  = Some (65536 * ((Z.of_nat (length data) + weighted_octet_sum data)
                     mod MOD_ADLER)
          + (1 + octet_sum data) mod MOD_ADLER).
Proof.
  intros Hin. unfold adler32. rewrite Nat2Z.id.
  pose proof (adler32_loop_sums cs [] data 1 0 Hin
                ltac:(unfold MOD_ADLER; lia) ltac:(unfold MOD_ADLER; lia))
    as Hloop.
  cbn [app length] in Hloop. change (Z.of_nat 0) with 0 in Hloop.
  rewrite Hloop. cbn [mbind option_bind fst snd]. f_equal.
  rewrite adler32_combine by (apply Z.mod_pos_bound; unfold MOD_ADLER; lia).
  do 3 f_equal. lia.
Qed.

Lemma adler32_closed_form_witness :
  adler32 UnsignedChar [x57; x69; x6b; x69; x70; x65; x64; x69; x61]
    (Z.of_nat (length [x57; x69; x6b; x69; x70; x65; x64; x69; x61]))
  = Some (65536 * ((Z.of_nat
                      (length [x57; x69; x6b; x69; x70; x65; x64; x69; x61])
                    + weighted_octet_sum
                        [x57; x69; x6b; x69; x70; x65; x64; x69; x61])
                     mod MOD_ADLER)
          + (1 + octet_sum [x57; x69; x6b; x69; x70; x65; x64; x69; x61])
              mod MOD_ADLER).
Proof.
  apply (adler32_closed_form UnsignedChar
           [x57; x69; x6b; x69; x70; x65; x64; x69; x61]).
  repeat constructor.
Defined.

(** X30.  Where [char] is signed, [adler32] is not Adler-32 on octets from
    0x80 on: the one-octet input [b], [0x80 <= b <= 0xFE], gives
    [65537 * (b - 30)], where an unsigned [char] gives the Adler-32 value
    [65537 * (b + 1)]. *)
Theorem adler32_signed_high_octet (b : byte) :
  128 <= Spec.octet b < 255 ->
  adler32 SignedChar [b] 1 = Some (65537 * (Spec.octet b - 30))
  /\ adler32 UnsignedChar [b] 1 = Some (65537 * (Spec.octet b + 1)).
Proof.
  intros Hb.
  destruct b;
    try (exfalso; vm_compute in Hb; destruct Hb as [Hlo Hhi];
         first [by apply Hlo | discriminate Hhi]);
    vm_compute; split; reflexivity.
Qed.

Lemma adler32_signed_high_octet_witness :
  adler32 SignedChar [x80] 1 = Some (65537 * (Spec.octet x80 - 30))
  /\ adler32 UnsignedChar [x80] 1 = Some (65537 * (Spec.octet x80 + 1)).
Proof.
  apply (adler32_signed_high_octet x80). vm_compute. split; congruence.
Defined.
